(** * pele: [SimplePairwiseInteractionList] (simple_pairwise_ilist.h)

    A shallow embedding of the C++ class template
    [pele::SimplePairwiseInteractionList<pairwise_interaction, distance_policy>]
    and of its two member functions [get_energy] and [get_energy_gradient],
    followed by the properties of the two evaluation routines.

    - [double] is an abstract carrier with the four operations the header
      uses ([0.], [+], [-], [*]); IEEE binary64 (Rocq's primitive floats) and
      the integers (exact arithmetic) are the two instances used below.
    - [long int] and [size_t] are 64-bit integers, modelled in [Z] with the
      wrap-around of the conversions and of unsigned addition written out.
    - [Array<double>] and [std::vector<long int>] are lists; an access outside
      the container, a signed overflow and a failed [assert] are the ways an
      evaluation can go wrong, and are kept apart in [fault].
    - The coordinate buffer and the gradient buffer are distinct arrays: the
      gradient is threaded through [get_energy_gradient] and returned next to
      the energy. *)

From Stdlib Require Import ZArith Lia Ring Bool.
From Stdlib Require Import Floats.SpecFloat Floats.PrimFloat Floats.FloatOps
  Floats.FloatAxioms.
From stdpp Require Import base tactics option list.

Local Open Scope Z_scope.

(** ** Machine integers *)

Module Machine.

Definition size_t_modulus : Z := 2 ^ 64.
Definition LONG_MIN : Z := - 2 ^ 63.
Definition LONG_MAX : Z := 2 ^ 63 - 1.

(** Conversion of an integer value to [size_t]: reduction modulo 2^64. *)
Definition to_size_t (z : Z) : Z := z mod size_t_modulus.

(** Conversion of a [size_t] value to [long int] (the cast
    [(long int)natoms]): two's complement reinterpretation. *)
Definition to_long (z : Z) : Z :=
  let u := z mod size_t_modulus in
  if u <=? LONG_MAX then u else u - size_t_modulus.

(** [size_t] addition wraps. *)
Definition size_add (a b : Z) : Z := (a + b) mod size_t_modulus.

Definition in_long_range (z : Z) : bool := (LONG_MIN <=? z) && (z <=? LONG_MAX).

End Machine.

(** ** Outcomes of an evaluation *)

Inductive fault : Type :=
| VectorOutOfRange (i : nat)   (* [_ilist[i]] with [i >= _ilist.size()] *)
| ArrayOutOfRange (i : Z)      (* [x[i]] or [grad[i]] with [i >= size()] *)
| SignedOverflow               (* [3*_ilist[i]] does not fit a [long int] *)
| AssertionFailed.             (* an [assert] that fails when NDEBUG is unset *)

Inductive result (A : Type) : Type :=
| Ok (a : A)
| Fault (f : fault).
Arguments Ok {A} a.
Arguments Fault {A} f.

Global Instance result_ret : MRet result := fun _ a => Ok a.
Global Instance result_bind : MBind result := fun _ _ k m =>
  match m with
  | Ok a => k a
  | Fault f => Fault f
  end.

(** The value an evaluation returns, if it returns one. *)
Definition returned {A} (r : result A) : option A :=
  match r with
  | Ok a => Some a
  | Fault _ => None
  end.

(** [assert(c)]: a no-op when NDEBUG is defined, fatal when [c] is false
    and NDEBUG is not defined. *)
Definition assert_ (ndebug : bool) (c : bool) : result unit :=
  if ndebug then Ok tt else if c then Ok tt else Fault AssertionFailed.

(** [for (size_t i = start; i < n; i += step) body]; [fuel] bounds the number
    of iterations and [for_] supplies [n], which is enough for [step >= 1]. *)
Fixpoint for_loop {St : Type} (fuel : nat) (i n step : nat)
    (body : nat → St → result St) (s : St) : result St :=
  match fuel with
  | O => Ok s
  | S fuel' =>
      if (i <? n)%nat
      then s' ← body i s; for_loop fuel' (i + step)%nat n step body s'
      else Ok s
  end.

Definition for_ {St : Type} (n step : nat) (body : nat → St → result St)
    (s : St) : result St :=
  for_loop n 0 n step body s.

(** ** Containers *)

(** [_ilist[i]] on the [std::vector<long int>]. *)
Definition vector_at (v : list Z) (i : nat) : result Z :=
  match v !! i with
  | Some a => Ok a
  | None => Fault (VectorOutOfRange i)
  end.

(** Modelled from the spec: array.h is not part of the sources.  An [Array]
    is a flat ordered sequence of its elements; [x[i]], with [i] a [size_t],
    reads element [i] and is not defined past the end. *)
Definition Array_get {T : Type} (x : list T) (i : Z) : result T :=
  if (0 <=? i) && (i <? Z.of_nat (length x))
  then match x !! Z.to_nat i with
       | Some v => Ok v
       | None => Fault (ArrayOutOfRange i)
       end
  else Fault (ArrayOutOfRange i).

(** Modelled from the spec: [x[i] = v] on an [Array] (array.h is not part of
    the sources) overwrites element [i] in place. *)
Definition Array_set {T : Type} (x : list T) (i : Z) (v : T) : result (list T) :=
  if (0 <=? i) && (i <? Z.of_nat (length x))
  then Ok (<[Z.to_nat i := v]> x)
  else Fault (ArrayOutOfRange i).

(** ** The arithmetic of [double] *)

Class DoubleOps (D : Type) : Type := {
  d_zero : D;
  d_add : D → D → D;
  d_sub : D → D → D;
  d_mul : D → D → D
}.

Declare Scope double_scope.
Delimit Scope double_scope with D.
Infix "+" := d_add : double_scope.
Infix "-" := d_sub : double_scope.
Infix "*" := d_mul : double_scope.

(** IEEE 754 binary64, the [double] of the platforms pele runs on. *)
Global Instance binary64 : DoubleOps float := {
  d_zero := 0%float;
  d_add := PrimFloat.add;
  d_sub := PrimFloat.sub;
  d_mul := PrimFloat.mul
}.

(** The square of a difference does not depend on the order of its operands.
    This holds in exact arithmetic and for IEEE doubles alike. *)
Class SquareSymmetric (D : Type) `{DoubleOps D} : Prop :=
  square_difference : ∀ u v : D, ((v - u) * (v - u) = (u - v) * (u - v))%D.

(** Exact arithmetic: the operations form a commutative ring. *)
Class ExactArithmetic (D : Type) `{DoubleOps D} : Type := {
  d_one : D;
  d_opp : D → D;
  exact_ring : ring_theory d_zero d_one d_add d_mul d_sub d_opp eq
}.

(** The integers, the instance of exact arithmetic used in the examples. *)
Global Instance integers : DoubleOps Z := {
  d_zero := 0;
  d_add := Z.add;
  d_sub := Z.sub;
  d_mul := Z.mul
}.

Global Instance integers_exact : ExactArithmetic Z := {
  d_one := 1;
  d_opp := Z.opp;
  exact_ring := Zth
}.

(** ** The template parameters *)

(** The interface [SimplePairwiseInteractionList] uses of its
    [pairwise_interaction] parameter: [energy(r2)] and
    [energy_gradient(r2, &gij)], the latter returning the energy and storing
    the coefficient [gij]. *)
Record pairwise_interaction (D : Type) : Type := {
  energy : D → D;
  energy_gradient : D → D * D
}.
Arguments energy {D} _ _.
Arguments energy_gradient {D} _ _.

(** The local [double dr[3]]. *)
Definition vec3 (D : Type) : Type := (D * D * D)%type.

Definition vec3_at {D : Type} (v : vec3 D) (k : nat) : D :=
  match k with
  | O => v.1.1
  | S O => v.1.2
  | _ => v.2
  end.

(** Modelled from the spec: distance.h is not part of the sources.  A distance
    policy is a capability that computes the separation vector between two
    positions. *)
Record distance_policy (D : Type) : Type := {
  get_rij : vec3 D → vec3 D → vec3 D
}.
Arguments get_rij {D} _ _ _.

(** Modelled from the spec: the default policy of distance.h performs
    unwrapped per-axis subtraction. *)
Definition cartesian_distance {D : Type} `{DoubleOps D} : distance_policy D := {|
  get_rij r1 r2 :=
    ((r1.1.1 - r2.1.1)%D, (r1.1.2 - r2.1.2)%D, (r1.2 - r2.2)%D)
|}.

(** ** The class *)

Record SimplePairwiseInteractionList (D : Type) : Type := {
  _interaction : pairwise_interaction D;
  _dist : distance_policy D;
  _ilist : list Z
}.
Arguments _interaction {D} _.
Arguments _dist {D} _.
Arguments _ilist {D} _.

Section Evaluator.

Context {D : Type} `{DoubleOps D}.

(** The constructor: [dist=NULL] is replaced by a default-constructed
    policy, and the index array is copied into [_ilist]. *)
Definition make (interaction : pairwise_interaction D) (ilist : list Z)
    (dist : option (distance_policy D)) : SimplePairwiseInteractionList D := {|
  _interaction := interaction;
  _dist := match dist with
           | Some d => d
           | None => cartesian_distance
           end;
  _ilist := ilist
|}.

(** [size_t i1 = 3*_ilist[i];], the product taken in [long int]. *)
Definition index3 (a : Z) : result Z :=
  if Machine.in_long_range (3 * a)
  then Ok (Machine.to_size_t (3 * a))
  else Fault SignedOverflow.

(** [size_t i1 = 3*_ilist[i]; size_t i2 = 3*_ilist[i+1];], the first two
    statements of both loop bodies. *)
Definition pair_indices (ilist : list Z) (i : nat) : result (Z * Z) :=
  a ← vector_at ilist i;
  i1 ← index3 a;
  b ← vector_at ilist (i + 1);
  i2 ← index3 b;
  mret (i1, i2).

(** [dr[k] = x[i1+k] - x[i2+k]]; both operands are read, in either order,
    before the subtraction. *)
Definition dr_at (x : list D) (i1 i2 : Z) (k : Z) : result D :=
  x1 ← Array_get x (Machine.size_add i1 k);
  x2 ← Array_get x (Machine.size_add i2 k);
  mret (x1 - x2)%D.

(** [for(size_t k=0; k<3; ++k) dr[k] = x[i1+k] - x[i2+k];], the three
    iterations written out. *)
Definition separation (x : list D) (i1 i2 : Z) : result (vec3 D) :=
  d0 ← dr_at x i1 i2 0;
  d1 ← dr_at x i1 i2 1;
  d2 ← dr_at x i1 i2 2;
  mret (d0, d1, d2).

(** [dr[0]*dr[0] + dr[1]*dr[1] + dr[2]*dr[2]] *)
Definition norm2 (dr : vec3 D) : D :=
  (vec3_at dr 0 * vec3_at dr 0 + vec3_at dr 1 * vec3_at dr 1
   + vec3_at dr 2 * vec3_at dr 2)%D.

(** One iteration of the loop of [get_energy]. *)
Definition energy_body (p : SimplePairwiseInteractionList D) (x : list D)
    (i : nat) (e : D) : result D :=
  '(i1, i2) ← pair_indices (_ilist p) i;
  dr ← separation x i1 i2;
  let r2 := norm2 dr in
  mret (e + energy (_interaction p) r2)%D.

Definition get_energy (p : SimplePairwiseInteractionList D) (x : list D)
    : result D :=
  let nlist := length (_ilist p) in
  for_ nlist 2 (energy_body p x) d_zero.

(** [for(size_t k=0; k<3; ++k) grad[i+k] -= gij * dr[k];] when [op] is the
    subtraction, and the loop with [+=] when [op] is the addition. *)
Definition scatter (op : D → D → D) (gij : D) (dr : vec3 D) (i : Z)
    (grad : list D) : result (list D) :=
  for_ 3 1 (fun k g =>
    let j := Machine.size_add i (Z.of_nat k) in
    v ← Array_get g j;
    Array_set g j (op v (gij * vec3_at dr k)%D)) grad.

(** One iteration of the main loop of [get_energy_gradient]; the state is
    the pair of [e] and the contents of [grad]. *)
Definition gradient_body (p : SimplePairwiseInteractionList D) (x : list D)
    (i : nat) (s : D * list D) : result (D * list D) :=
  '(i1, i2) ← pair_indices (_ilist p) i;
  dr ← separation x i1 i2;
  let r2 := norm2 dr in
  let eg := energy_gradient (_interaction p) r2 in
  let e := (s.1 + eg.1)%D in
  let gij := eg.2 in
  g1 ← scatter d_sub gij dr i1 s.2;
  g2 ← scatter d_add gij dr i2 g1;
  mret (e, g2).

Definition get_energy_gradient (ndebug : bool)
    (p : SimplePairwiseInteractionList D) (x grad : list D)
    : result (D * list D) :=
  let n := length x in
  let natoms := (Z.of_nat (length x) / 3) in
  let nlist := length (_ilist p) in
  _ ← assert_ ndebug (Nat.eqb (length x) (length grad));
  grad ← for_ n 1 (fun i g => Array_set g (Z.of_nat i) d_zero) grad;
  _ ← (if ndebug then Ok tt
       else for_ nlist 1 (fun i _ =>
              a ← vector_at (_ilist p) i;
              assert_ ndebug (a <? Machine.to_long natoms)) tt);
  for_ nlist 2 (gradient_body p x) (d_zero, grad).

End Evaluator.

(** ** What the loops compute on well-formed input

    The functions below restate the result of the two routines without
    machine indices, faults or loops: positions are read slot by slot, pairs
    are taken from the list two entries at a time, and the gradient is a list
    updated in place.  They are related to [get_energy] and
    [get_energy_gradient] by the lemmas of the next part. *)

Section Model.

Context {D : Type} `{DoubleOps D}.

(** The slot of axis [k] of particle [a] in a flat buffer. *)
Definition slot (a : Z) (k : nat) : nat := (Z.to_nat (3 * a) + k)%nat.

(** Coordinate [k] of particle [a]. *)
Definition pos (x : list D) (a : Z) (k : nat) : D :=
  default d_zero (x !! slot a k).

(** [pos(a) - pos(b)], axis by axis. *)
Definition pair_dr (x : list D) (a b : Z) : vec3 D :=
  ((pos x a 0 - pos x b 0)%D, (pos x a 1 - pos x b 1)%D, (pos x a 2 - pos x b 2)%D).

(** [|pos(a) - pos(b)|^2] *)
Definition pair_r2 (x : list D) (a b : Z) : D := norm2 (pair_dr x a b).

(** The energy of one pair, computed on its own. *)
Definition pair_energy (law : pairwise_interaction D) (x : list D)
    (ab : Z * Z) : D :=
  energy law (pair_r2 x ab.1 ab.2).

(** The coefficient [gij] of one pair. *)
Definition pair_gij (law : pairwise_interaction D) (x : list D)
    (ab : Z * Z) : D :=
  (energy_gradient law (pair_r2 x ab.1 ab.2)).2.

(** The product [gij * dr[k]] that one pair subtracts from the slots of its
    first particle and adds to the slots of its second particle. *)
Definition pair_term (law : pairwise_interaction D) (x : list D)
    (ab : Z * Z) (k : nat) : D :=
  (pair_gij law x ab * vec3_at (pair_dr x ab.1 ab.2) k)%D.

(** The interaction list read two entries at a time. *)
Fixpoint pairs (l : list Z) : list (Z * Z) :=
  match l with
  | a :: b :: r => (a, b) :: pairs r
  | _ => []
  end.

(** A sum taken from [0.] in list order, as [e += ...] does. *)
Definition sum_in_order (l : list D) : D := fold_left d_add l d_zero.

(** The three slots of particle [a] updated with [op] and the three terms. *)
Definition update3 (op : D → D → D) (t : nat → D) (a : Z) (g : list D)
    : list D :=
  alter (λ v, op v (t 2%nat)) (slot a 2)
    (alter (λ v, op v (t 1%nat)) (slot a 1)
       (alter (λ v, op v (t 0%nat)) (slot a 0) g)).

(** The effect of one pair on the gradient buffer. *)
Definition pair_scatter (law : pairwise_interaction D) (x : list D)
    (g : list D) (ab : Z * Z) : list D :=
  update3 d_add (pair_term law x ab) ab.2
    (update3 d_sub (pair_term law x ab) ab.1 g).

(** The effect of one pair on [e] and on the gradient buffer. *)
Definition gradient_step (law : pairwise_interaction D) (x : list D)
    (s : D * list D) (ab : Z * Z) : D * list D :=
  ((s.1 + (energy_gradient law (pair_r2 x ab.1 ab.2)).1)%D,
   pair_scatter law x s.2 ab).

(** What one pair does to the value held in slot [k] of particle [q]. *)
Definition slot_step (law : pairwise_interaction D) (x : list D)
    (q : Z) (k : nat) (v : D) (ab : Z * Z) : D :=
  let v1 := if decide (ab.1 = q) then (v - pair_term law x ab k)%D else v in
  if decide (ab.2 = q) then (v1 + pair_term law x ab k)%D else v1.

(** The sum of [f q] over the particles [q] of [l]. *)
Definition sum_over (f : nat → D) (l : list nat) : D :=
  fold_right (λ q acc, (f q + acc)%D) d_zero l.

(** The sum over the [N] particles of the entries of axis [k]. *)
Definition axis_sum (N : nat) (k : nat) (g : list D) : D :=
  sum_over (λ q, default d_zero (g !! (3 * q + k)%nat)) (seq 0 N).

(** No object is larger than PTRDIFF_MAX bytes, so the number of elements of
    an [Array] fits a [long int]. *)
Definition addressable {T : Type} (x : list T) : Prop :=
  Z.of_nat (length x) ≤ Machine.LONG_MAX.

(** Particle [a] has its three slots inside the buffer [x]. *)
Definition inside {T : Type} (x : list T) (a : Z) : Prop :=
  0 ≤ a ∧ 3 * a + 2 < Z.of_nat (length x).

(** The preconditions of the two routines: the list has even length, its
    entries are particle indices, and the buffer holds [N] particles. *)
Record valid_input (N : nat) (ilist : list Z) (x : list D) : Prop := {
  ilist_even : Nat.even (length ilist) = true;
  ilist_range : Forall (λ a, 0 ≤ a < Z.of_nat N) ilist;
  coords_length : length x = (3 * N)%nat;
  coords_addressable : addressable x
}.

(** The list walked two entries at a time, with the reads of [pair_indices]
    resolved; [i] is the position of the head of [rest] in [_ilist]. *)
Fixpoint walk {St : Type} (step : Z * Z → St → result St) (i : nat)
    (rest : list Z) (s : St) : result St :=
  match rest with
  | [] => Ok s
  | a :: rest' =>
      i1 ← index3 a;
      match rest' with
      | [] => Fault (VectorOutOfRange (i + 1))
      | b :: r =>
          i2 ← index3 b;
          s' ← step (i1, i2) s;
          walk step (i + 2) r s'
      end
  end.

(** The two loop bodies after the reads of [pair_indices]. *)
Definition energy_tail (p : SimplePairwiseInteractionList D) (x : list D)
    (ij : Z * Z) (e : D) : result D :=
  let '(i1, i2) := ij in
    dr ← separation x i1 i2;
    let r2 := norm2 dr in
    mret (e + energy (_interaction p) r2)%D.

Definition gradient_tail (p : SimplePairwiseInteractionList D) (x : list D)
    (ij : Z * Z) (s : D * list D) : result (D * list D) :=
  let '(i1, i2) := ij in
    dr ← separation x i1 i2;
    let r2 := norm2 dr in
    let eg := energy_gradient (_interaction p) r2 in
    let e := (s.1 + eg.1)%D in
    let gij := eg.2 in
    g1 ← scatter d_sub gij dr i1 s.2;
    g2 ← scatter d_add gij dr i2 g1;
    mret (e, g2).

End Model.

(** ** The worked example: one pair, quadratic law *)

(** The law with [energy(r2) = r2] and [energy_gradient(r2) = (r2, 2)]. *)
Definition law_r2 : pairwise_interaction float := {|
  energy r2 := r2;
  energy_gradient r2 := (r2, 2%float)
|}.

(** The same law in exact arithmetic. *)
Definition law_r2_exact : pairwise_interaction Z := {|
  energy r2 := r2;
  energy_gradient r2 := (r2, 2)
|}.

(** particle 0 at (0,0,0), particle 1 at (1,0,0) *)
Definition two_particles : list float := [0; 0; 0; 1; 0; 0]%float.

(** particles at (0,0,0), (1,0,0) and (0,2,0), in exact arithmetic *)
Definition three_particles : list Z := [0; 0; 0; 1; 0; 0; 0; 2; 0].

(** A distance policy that is not plain subtraction. *)
Definition first_position : distance_policy float := {|
  get_rij r1 r2 := r1
|}.

(** Is the first entry of the gradient an evaluation wrote positive? *)
Definition first_entry_positive (r : result (float * list float)) : bool :=
  match r with
  | Ok (_, v :: _) => PrimFloat.ltb 0 v
  | _ => false
  end.

(** ** Transformed inputs *)

Section Transformed.

Context {D : Type} `{DoubleOps D}.

(** Every particle of the buffer moved by the same vector [t]. *)
Definition translate (t : vec3 D) (x : list D) : list D :=
  imap (λ j v, (v + vec3_at t (j mod 3))%D) x.

End Transformed.

(** Four particles on doubles: one far away at (2^26, 2^26, 0), two at
    distance 1 from the origin. *)
Definition four_particles : list float :=
  [0; 0; 0; 67108864; 67108864; 0; 1; 0; 0; 0; 1; 0]%float.

(** [three_particles] with its third particle moved to (5,5,5). *)
Definition three_particles_moved : list Z := [0; 0; 0; 1; 0; 0; 5; 5; 5].

(** Tactics that discharge the preconditions on concrete inputs. *)

Ltac particles_in_range :=
  repeat (apply Forall_cons; split; [simpl; lia|]); constructor.

Ltac buffer_addressable :=
  unfold addressable, Machine.LONG_MAX; simpl; lia.

Ltac well_formed :=
  constructor;
    [ reflexivity | particles_in_range | reflexivity | buffer_addressable ].

Ltac particle_inside := unfold inside; simpl; lia.

(** * Properties *)

(** ** The error monad and the loops *)

Lemma bind_Ok {A B : Type} (a : A) (k : A → result B) : (Ok a ≫= k) = k a.
Proof. reflexivity. Qed.

Lemma bind_Fault {A B : Type} (f : fault) (k : A → result B) :
  (Fault f ≫= k) = Fault f.
Proof. reflexivity. Qed.

Lemma returned_bind {A B : Type} (m : result A) (k : A → result B) :
  returned (m ≫= k) = returned m ≫= (λ a, returned (k a)).
Proof. destruct m; reflexivity. Qed.

Section Loops.

Context {St : Type}.
Implicit Types (body : nat → St → result St) (s : St).

Lemma for_loop_exit fuel i n step body s :
  (n ≤ i)%nat → for_loop fuel i n step body s = Ok s.
Proof.
  intros Hle. destruct fuel as [|fuel]; [reflexivity|]. simpl.
  destruct (Nat.ltb_spec i n); [lia | reflexivity].
Qed.

Lemma for_loop_enter fuel i n step body s :
  (i < n)%nat →
  for_loop (S fuel) i n step body s
  = body i s ≫= for_loop fuel (i + step) n step body.
Proof.
  intros Hlt. simpl. destruct (Nat.ltb_spec i n); [reflexivity | lia].
Qed.

(** The fuel [for_] supplies never runs out: fuel beyond [n - i] is not used. *)
Lemma for_loop_fuel fuel extra i n step body s :
  (1 ≤ step)%nat → (n - i ≤ fuel)%nat →
  for_loop (fuel + extra) i n step body s = for_loop fuel i n step body s.
Proof.
  intros Hstep. revert i s. induction fuel as [|fuel IH]; intros i s Hfuel.
  - rewrite !for_loop_exit by lia. reflexivity.
  - simpl. destruct (i <? n)%nat; [|reflexivity].
    destruct (body i s) as [s'|]; [|reflexivity]. simpl.
    apply IH. lia.
Qed.

(** The loop over the interaction list is the walk over its entries. *)
Lemma for_loop_walk (step : Z * Z → St → result St) (ilist : list Z) :
  ∀ fuel pre rest s,
    ilist = pre ++ rest →
    (length rest ≤ fuel)%nat →
    for_loop fuel (length pre) (length ilist) 2
      (λ i s, ij ← pair_indices ilist i; step ij s) s
    = walk step (length pre) rest s.
Proof.
  induction fuel as [|fuel IH]; intros pre rest s Hil Hfuel.
  - destruct rest; [reflexivity | simpl in Hfuel; lia].
  - destruct rest as [|a [|b r]].
    + apply for_loop_exit. subst ilist. rewrite length_app. simpl. lia.
    + rewrite for_loop_enter by (subst ilist; rewrite length_app; simpl; lia).
      unfold pair_indices, vector_at.
      assert (Ha : ilist !! length pre = Some a)
        by (subst ilist; apply list_lookup_middle; reflexivity).
      assert (Hb : ilist !! (length pre + 1)%nat = None)
        by (subst ilist; apply lookup_ge_None_2; rewrite length_app; simpl; lia).
      rewrite Ha, Hb. simpl. destruct (index3 a); reflexivity.
    + rewrite for_loop_enter by (subst ilist; rewrite length_app; simpl; lia).
      unfold pair_indices, vector_at.
      assert (Ha : ilist !! length pre = Some a)
        by (subst ilist; apply list_lookup_middle; reflexivity).
      assert (Hb : ilist !! (length pre + 1)%nat = Some b).
      { subst ilist. rewrite lookup_app_r by lia.
        replace (length pre + 1 - length pre)%nat with 1%nat by lia.
        reflexivity. }
      rewrite Ha, Hb. simpl.
      destruct (index3 a) as [i1|]; [|reflexivity]. simpl.
      destruct (index3 b) as [i2|]; [|reflexivity]. simpl.
      destruct (step (i1, i2) s) as [s'|]; [|reflexivity]. simpl.
      specialize (IH (pre ++ [a; b]) r s').
      rewrite length_app in IH. simpl in IH.
      apply IH; [subst ilist; rewrite <- app_assoc; reflexivity |].
      simpl in Hfuel. lia.
Qed.

Lemma for_walk (step : Z * Z → St → result St) (ilist : list Z) s :
  for_ (length ilist) 2 (λ i s, ij ← pair_indices ilist i; step ij s) s
  = walk step 0 ilist s.
Proof.
  unfold for_. apply (for_loop_walk step ilist (length ilist) [] ilist s);
    [reflexivity | lia].
Qed.

End Loops.

(** ** Machine indices and container accesses *)

Lemma index3_small (a : Z) :
  0 ≤ a → 3 * a ≤ Machine.LONG_MAX → index3 a = Ok (3 * a).
Proof.
  intros H0 Hmax. unfold index3, Machine.in_long_range, Machine.to_size_t.
  unfold Machine.LONG_MIN, Machine.LONG_MAX, Machine.size_t_modulus in *.
  rewrite (proj2 (Z.leb_le _ _)) by lia.
  rewrite (proj2 (Z.leb_le _ _)) by lia.
  simpl. rewrite Z.mod_small by lia. reflexivity.
Qed.

Lemma size_add_small (i k : Z) :
  0 ≤ i → 0 ≤ k → i + k < Machine.size_t_modulus → Machine.size_add i k = i + k.
Proof. intros. unfold Machine.size_add. apply Z.mod_small. lia. Qed.

Lemma to_long_small (z : Z) :
  0 ≤ z ≤ Machine.LONG_MAX → Machine.to_long z = z.
Proof.
  intros Hz. unfold Machine.to_long, Machine.LONG_MAX, Machine.size_t_modulus in *.
  rewrite Z.mod_small by lia.
  rewrite (proj2 (Z.leb_le _ _)) by lia. reflexivity.
Qed.

Lemma Array_get_lookup {T : Type} (x : list T) (j : nat) (v : T) :
  x !! j = Some v → Array_get x (Z.of_nat j) = Ok v.
Proof.
  intros Hj. unfold Array_get.
  pose proof (lookup_lt_Some _ _ _ Hj) as Hlt.
  rewrite (proj2 (Z.leb_le _ _)) by lia.
  rewrite (proj2 (Z.ltb_lt _ _)) by lia.
  simpl. rewrite Nat2Z.id, Hj. reflexivity.
Qed.

Lemma Array_get_outside {T : Type} (x : list T) (i : Z) :
  Z.of_nat (length x) ≤ i → Array_get x i = Fault (ArrayOutOfRange i).
Proof.
  intros Hi. unfold Array_get.
  rewrite (proj2 (Z.ltb_ge _ _)) by lia.
  rewrite andb_false_r. reflexivity.
Qed.

Lemma Array_set_inside {T : Type} (x : list T) (j : nat) (v : T) :
  (j < length x)%nat → Array_set x (Z.of_nat j) v = Ok (<[j := v]> x).
Proof.
  intros Hlt. unfold Array_set.
  rewrite (proj2 (Z.leb_le _ _)) by lia.
  rewrite (proj2 (Z.ltb_lt _ _)) by lia.
  simpl. rewrite Nat2Z.id. reflexivity.
Qed.

Lemma insert_as_alter {T : Type} (f : T → T) (g : list T) (j : nat) (v : T) :
  g !! j = Some v → <[j := f v]> g = alter f j g.
Proof.
  intros Hj. apply list_eq. intros i.
  rewrite list_lookup_insert, list_lookup_alter.
  pose proof (lookup_lt_Some _ _ _ Hj).
  destruct (decide (j = i)) as [->|Hne].
  - rewrite decide_True by (split; [reflexivity | assumption]).
    rewrite Hj. reflexivity.
  - rewrite decide_False by (intros [? _]; contradiction). reflexivity.
Qed.

(** [grad[j] = op(grad[j], t)] on a slot inside the buffer. *)
Lemma read_modify_write {T : Type} (f : T → T) (g : list T) (j : nat) :
  (j < length g)%nat →
  (v ← Array_get g (Z.of_nat j); Array_set g (Z.of_nat j) (f v))
  = Ok (alter f j g).
Proof.
  intros Hlt. destruct (lookup_lt_is_Some_2 g j Hlt) as [v Hv].
  rewrite (Array_get_lookup _ _ _ Hv). simpl.
  rewrite Array_set_inside by assumption.
  rewrite (insert_as_alter f g j v Hv). reflexivity.
Qed.

(** The loop [for(i=0; i<n; ++i) grad[i] = 0.] on a buffer of [n] entries. *)
Lemma zero_loop {T : Type} (z : T) :
  ∀ fuel (pre rest : list T),
    (length rest ≤ fuel)%nat →
    for_loop fuel (length pre) (length (pre ++ rest)) 1
      (λ i g, Array_set g (Z.of_nat i) z) (pre ++ rest)
    = Ok (pre ++ replicate (length rest) z).
Proof.
  induction fuel as [|fuel IH]; intros pre rest Hfuel.
  - destruct rest; [reflexivity | simpl in Hfuel; lia].
  - destruct rest as [|v r].
    + rewrite for_loop_exit by (rewrite length_app; simpl; lia). reflexivity.
    + rewrite for_loop_enter by (rewrite length_app; simpl; lia).
      rewrite Array_set_inside by (rewrite length_app; simpl; lia).
      simpl.
      replace (<[length pre := z]> (pre ++ v :: r)) with ((pre ++ [z]) ++ r).
      2:{ rewrite <- (Nat.add_0_r (length pre)), insert_app_r.
          simpl. rewrite <- app_assoc. reflexivity. }
      replace (length (pre ++ v :: r)) with (length ((pre ++ [z]) ++ r))
        by (rewrite !length_app; simpl; lia).
      replace (length pre + 1)%nat with (length (pre ++ [z]))
        by (rewrite length_app; simpl; lia).
      rewrite IH by (simpl in Hfuel; lia).
      rewrite <- app_assoc. reflexivity.
Qed.

Lemma zero_fill {T : Type} (z : T) (n : nat) (grad : list T) :
  length grad = n →
  for_ n 1 (λ i g, Array_set g (Z.of_nat i) z) grad = Ok (replicate n z).
Proof.
  intros <-. unfold for_.
  exact (zero_loop z (length grad) [] grad (le_n _)).
Qed.

(** ** The routines as walks over the interaction list *)

Lemma pair_induction (P : list Z → Prop) :
  P [] → (∀ a, P [a]) → (∀ a b r, P r → P (a :: b :: r)) → ∀ l, P l.
Proof.
  intros Hnil Hone Hpair l.
  cut (P l ∧ ∀ a, P (a :: l)); [tauto|].
  induction l as [|b l [IH1 IH2]]; split; auto.
Qed.

Section Faithful.

Context {D : Type} `{DoubleOps D}.
Implicit Types (x g grad : list D) (a b : Z) (p : SimplePairwiseInteractionList D).

Lemma get_energy_walk p x :
  get_energy p x = walk (energy_tail p x) 0 (_ilist p) d_zero.
Proof. exact (for_walk (energy_tail p x) (_ilist p) d_zero). Qed.

Lemma main_loop_walk p x (s : D * list D) :
  for_ (length (_ilist p)) 2 (gradient_body p x) s
  = walk (gradient_tail p x) 0 (_ilist p) s.
Proof. exact (for_walk (gradient_tail p x) (_ilist p) s). Qed.

(** *** Slots of a particle that lies inside the buffer *)

Lemma slot_inside x a (k : nat) :
  addressable x → 0 ≤ a → 3 * a + 2 < Z.of_nat (length x) → (k < 3)%nat →
  Machine.size_add (3 * a) (Z.of_nat k) = Z.of_nat (slot a k)
  ∧ (slot a k < length x)%nat.
Proof.
  intros Hx Ha Hlt Hk. unfold addressable, Machine.LONG_MAX in Hx.
  rewrite size_add_small by (unfold Machine.size_t_modulus; lia).
  unfold slot. split; lia.
Qed.

Lemma read_slot x a (k : nat) :
  addressable x → 0 ≤ a → 3 * a + 2 < Z.of_nat (length x) → (k < 3)%nat →
  Array_get x (Machine.size_add (3 * a) (Z.of_nat k)) = Ok (pos x a k).
Proof.
  intros Hx Ha Hlt Hk.
  destruct (slot_inside x a k Hx Ha Hlt Hk) as [-> Hin].
  destruct (lookup_lt_is_Some_2 x _ Hin) as [v Hv].
  unfold pos. rewrite Hv. simpl. exact (Array_get_lookup _ _ _ Hv).
Qed.

Lemma separation_inside x a b :
  addressable x →
  0 ≤ a → 3 * a + 2 < Z.of_nat (length x) →
  0 ≤ b → 3 * b + 2 < Z.of_nat (length x) →
  separation x (3 * a) (3 * b) = Ok (pair_dr x a b).
Proof.
  intros Hx Ha Hla Hb Hlb. unfold separation, dr_at.
  change 0 with (Z.of_nat 0) at 1 2. change 1 with (Z.of_nat 1). change 2 with (Z.of_nat 2).
  rewrite !read_slot by (assumption || lia). reflexivity.
Qed.

Lemma length_update3 (op : D → D → D) (t : nat → D) a g :
  length (update3 op t a g) = length g.
Proof. unfold update3. rewrite !length_alter. reflexivity. Qed.

Lemma scatter_inside (op : D → D → D) (gij : D) (dr : vec3 D) x a g :
  length g = length x → addressable x →
  0 ≤ a → 3 * a + 2 < Z.of_nat (length x) →
  scatter op gij dr (3 * a) g
  = Ok (update3 op (λ k, (gij * vec3_at dr k)%D) a g).
Proof.
  intros Hg Hx Ha Hlt. unfold scatter, for_.
  destruct (slot_inside x a 0 Hx Ha Hlt) as [E0 L0]; [lia|].
  destruct (slot_inside x a 1 Hx Ha Hlt) as [E1 L1]; [lia|].
  destruct (slot_inside x a 2 Hx Ha Hlt) as [E2 L2]; [lia|].
  rewrite for_loop_enter by lia. rewrite E0.
  rewrite read_modify_write by (rewrite Hg; exact L0). rewrite bind_Ok.
  rewrite for_loop_enter by lia. cbn [Nat.add]. rewrite E1.
  rewrite read_modify_write by (rewrite length_alter, Hg; exact L1). rewrite bind_Ok.
  rewrite for_loop_enter by lia. cbn [Nat.add]. rewrite E2.
  rewrite read_modify_write by (rewrite !length_alter, Hg; exact L2). rewrite bind_Ok.
  rewrite for_loop_exit by lia. reflexivity.
Qed.

(** *** One pair on well-formed input *)

Lemma energy_tail_inside p x a b (e : D) :
  addressable x → inside x a → inside x b →
  energy_tail p x (3 * a, 3 * b) e
  = Ok (e + pair_energy (_interaction p) x (a, b))%D.
Proof.
  intros Hx [Ha Hla] [Hb Hlb]. unfold energy_tail.
  rewrite separation_inside by assumption. reflexivity.
Qed.

Lemma gradient_tail_inside p x a b (s : D * list D) :
  length s.2 = length x → addressable x → inside x a → inside x b →
  gradient_tail p x (3 * a, 3 * b) s
  = Ok (gradient_step (_interaction p) x s (a, b)).
Proof.
  intros Hs Hx [Ha Hla] [Hb Hlb]. unfold gradient_tail.
  rewrite separation_inside by assumption. rewrite bind_Ok. cbv zeta.
  rewrite (scatter_inside _ _ _ x a) by assumption. rewrite bind_Ok.
  rewrite (scatter_inside _ _ _ x b)
    by (rewrite ?length_update3; assumption).
  reflexivity.
Qed.

Lemma length_gradient_step (law : pairwise_interaction D) x
    (s : D * list D) (ab : Z * Z) :
  length (gradient_step law x s ab).2 = length s.2.
Proof.
  unfold gradient_step, pair_scatter. simpl. rewrite !length_update3. reflexivity.
Qed.

Lemma index3_inside x a :
  addressable x → inside x a → index3 a = Ok (3 * a).
Proof.
  intros Hx [Ha Hlt]. apply index3_small; [assumption|].
  unfold addressable in Hx. lia.
Qed.

Lemma valid_input_inside (N : nat) (ilist : list Z) x :
  valid_input N ilist x → Forall (inside x) ilist.
Proof.
  intros [_ Hr Hlen _]. eapply Forall_impl; [exact Hr|].
  intros a [Ha Hlt]. unfold inside. simpl in *. lia.
Qed.

(** *** The whole list on well-formed input *)

Lemma walk_energy_inside p x :
  addressable x →
  ∀ l, Nat.even (length l) = true → Forall (inside x) l →
  ∀ i (e : D),
    walk (energy_tail p x) i l e
    = Ok (fold_left (λ e ab, (e + pair_energy (_interaction p) x ab)%D)
            (pairs l) e).
Proof.
  intros Hx l. induction l as [|a|a b r IH] using pair_induction;
    intros Hev Hin i e.
  - reflexivity.
  - discriminate Hev.
  - apply Forall_cons in Hin as [Ha Hin]. apply Forall_cons in Hin as [Hb Hin].
    cbn [walk pairs fold_left].
    rewrite (index3_inside x a), bind_Ok by assumption.
    rewrite (index3_inside x b), bind_Ok by assumption.
    rewrite energy_tail_inside, bind_Ok by assumption.
    apply IH; assumption.
Qed.

Lemma walk_gradient_inside p x :
  addressable x →
  ∀ l, Nat.even (length l) = true → Forall (inside x) l →
  ∀ i (s : D * list D), length s.2 = length x →
    walk (gradient_tail p x) i l s
    = Ok (fold_left (gradient_step (_interaction p) x) (pairs l) s).
Proof.
  intros Hx l. induction l as [|a|a b r IH] using pair_induction;
    intros Hev Hin i s Hs.
  - reflexivity.
  - discriminate Hev.
  - apply Forall_cons in Hin as [Ha Hin]. apply Forall_cons in Hin as [Hb Hin].
    cbn [walk pairs fold_left].
    rewrite (index3_inside x a), bind_Ok by assumption.
    rewrite (index3_inside x b), bind_Ok by assumption.
    rewrite gradient_tail_inside, bind_Ok by assumption.
    apply IH; [assumption.. |].
    rewrite length_gradient_step. assumption.
Qed.

(** An odd number of entries: once the complete pairs are done, the read of
    [_ilist[i+1]] is one past the end. *)
Lemma walk_odd {St : Type} (P : St → Prop)
    (step : Z * Z → St → result St) x :
  addressable x →
  (∀ a b s, P s → inside x a → inside x b →
     ∃ s', step (3 * a, 3 * b) s = Ok s' ∧ P s') →
  ∀ l, Nat.odd (length l) = true → Forall (inside x) l →
  ∀ i (s : St), P s →
    walk step i l s = Fault (VectorOutOfRange (i + length l)).
Proof.
  intros Hx Hstep l. induction l as [|a|a b r IH] using pair_induction;
    intros Hodd Hin i s Hs.
  - discriminate Hodd.
  - apply Forall_cons in Hin as [Ha _]. cbn [walk].
    rewrite (index3_inside x a), bind_Ok by assumption. reflexivity.
  - apply Forall_cons in Hin as [Ha Hin]. apply Forall_cons in Hin as [Hb Hin].
    cbn [walk].
    rewrite (index3_inside x a), bind_Ok by assumption.
    rewrite (index3_inside x b), bind_Ok by assumption.
    destruct (Hstep a b s Hs Ha Hb) as (s' & -> & Hs'). rewrite bind_Ok.
    rewrite IH by assumption. do 2 f_equal. simpl. lia.
Qed.

(** The debug-build loop [assert(_ilist[i] < (long int)natoms)]. *)
Lemma assert_loop (ilist : list Z) (bound : Z) :
  ∀ fuel pre rest,
    ilist = pre ++ rest → (length rest ≤ fuel)%nat →
    Forall (λ a, a < bound) rest →
    for_loop fuel (length pre) (length ilist) 1
      (λ i (_ : unit), a ← vector_at ilist i; assert_ false (a <? bound)) tt
    = Ok tt.
Proof.
  induction fuel as [|fuel IH]; intros pre rest Hil Hfuel Hall; [reflexivity|].
  destruct rest as [|a r].
  - apply for_loop_exit. subst ilist. rewrite length_app. simpl. lia.
  - apply Forall_cons in Hall as [Ha Hall].
    rewrite for_loop_enter by (subst ilist; rewrite length_app; simpl; lia).
    assert (Hl : ilist !! length pre = Some a)
      by (subst ilist; apply list_lookup_middle; reflexivity).
    unfold vector_at. rewrite Hl. simpl.
    rewrite (proj2 (Z.ltb_lt _ _)) by assumption. simpl.
    specialize (IH (pre ++ [a]) r). rewrite length_app in IH. simpl in IH.
    apply IH; [subst ilist; rewrite <- app_assoc; reflexivity | | assumption].
    simpl in Hfuel. lia.
Qed.

Lemma asserts_pass (ilist : list Z) (bound : Z) :
  Forall (λ a, a < bound) ilist →
  for_ (length ilist) 1
    (λ i (_ : unit), a ← vector_at ilist i; assert_ false (a <? bound)) tt
  = Ok tt.
Proof.
  intros Hall. unfold for_.
  exact (assert_loop ilist bound (length ilist) [] ilist eq_refl (le_n _) Hall).
Qed.

Lemma natoms_bound x a :
  addressable x → inside x a →
  a < Machine.to_long (Z.of_nat (length x) / 3).
Proof.
  intros Hx [Ha Hlt]. unfold addressable in Hx.
  assert (Hq : a + 1 ≤ Z.of_nat (length x) / 3)
    by (apply Z.div_le_lower_bound; lia).
  assert (Hu : Z.of_nat (length x) / 3 ≤ Z.of_nat (length x))
    by (apply Z.div_le_upper_bound; lia).
  rewrite to_long_small by lia. lia.
Qed.

(** The prologue of [get_energy_gradient]: the length assertion, the zeroing
    loop and the index assertions, on a gradient buffer as long as [x] and a
    list of particles inside [x]. *)
Lemma get_energy_gradient_prologue (ndebug : bool) p x grad :
  length grad = length x →
  ndebug = true
  ∨ Forall (λ a, a < Machine.to_long (Z.of_nat (length x) / 3)) (_ilist p) →
  get_energy_gradient ndebug p x grad
  = walk (gradient_tail p x) 0 (_ilist p)
      (d_zero, replicate (length x) d_zero).
Proof.
  intros Hg Hmode. unfold get_energy_gradient.
  rewrite Hg, Nat.eqb_refl.
  assert (Ha : assert_ ndebug true = Ok tt) by (destruct ndebug; reflexivity).
  rewrite Ha, bind_Ok. rewrite zero_fill by assumption. rewrite bind_Ok.
  destruct ndebug.
  - rewrite bind_Ok. apply main_loop_walk.
  - destruct Hmode as [Hmode | Hin]; [discriminate Hmode|].
    rewrite asserts_pass, bind_Ok by exact Hin.
    apply main_loop_walk.
Qed.

Lemma inside_bounded x (l : list Z) :
  addressable x → Forall (inside x) l →
  Forall (λ a, a < Machine.to_long (Z.of_nat (length x) / 3)) l.
Proof.
  intros Hx Hin. eapply Forall_impl; [exact Hin|].
  intros a Ha. apply natoms_bound; assumption.
Qed.

Lemma fold_left_map_add {A : Type} (f : A → D) (l : list A) (e : D) :
  fold_left (λ e y, (e + f y)%D) l e = fold_left d_add (map f l) e.
Proof. revert e. induction l as [|y l IH]; intros e; simpl; [reflexivity | apply IH]. Qed.

(** [get_energy] on well-formed input. *)
Lemma get_energy_valid (N : nat) p x :
  valid_input N (_ilist p) x →
  get_energy p x
  = Ok (sum_in_order (map (pair_energy (_interaction p) x) (pairs (_ilist p)))).
Proof.
  intros Hv. rewrite get_energy_walk.
  rewrite walk_energy_inside;
    [ | apply Hv | apply Hv | exact (valid_input_inside N _ x Hv) ].
  unfold sum_in_order. rewrite fold_left_map_add. reflexivity.
Qed.

(** [get_energy_gradient] on well-formed input. *)
Lemma get_energy_gradient_valid (ndebug : bool) (N : nat) p x grad :
  valid_input N (_ilist p) x → length grad = length x →
  get_energy_gradient ndebug p x grad
  = Ok (fold_left (gradient_step (_interaction p) x) (pairs (_ilist p))
          (d_zero, replicate (length x) d_zero)).
Proof.
  intros Hv Hg. pose proof (valid_input_inside N _ x Hv) as Hin.
  rewrite get_energy_gradient_prologue;
    [ | assumption | right; apply inside_bounded; [apply Hv | assumption] ].
  apply walk_gradient_inside; [apply Hv | apply Hv | assumption |].
  simpl. apply length_replicate.
Qed.

End Faithful.

(** ** The two routines side by side, on arbitrary input *)

Lemma Array_get_Ok_inv {T : Type} (x : list T) (i : Z) (v : T) :
  Array_get x i = Ok v → 0 ≤ i < Z.of_nat (length x).
Proof.
  unfold Array_get. intros Hget.
  destruct (Z.leb_spec 0 i); destruct (Z.ltb_spec i (Z.of_nat (length x)));
    simpl in Hget; try discriminate Hget. lia.
Qed.

Lemma Array_set_length {T : Type} (x x' : list T) (i : Z) (v : T) :
  Array_set x i v = Ok x' → length x' = length x.
Proof.
  unfold Array_set. destruct (_ && _); intros Hset; [|discriminate Hset].
  assert (x' = <[Z.to_nat i := v]> x) as -> by congruence.
  apply length_insert.
Qed.

Lemma for_loop_invariant {St : Type} (P : St → Prop)
    (body : nat → St → result St) (n step : nat) :
  (∀ i s s', P s → body i s = Ok s' → P s') →
  ∀ fuel i s s', P s → for_loop fuel i n step body s = Ok s' → P s'.
Proof.
  intros Hbody. induction fuel as [|fuel IH]; intros i s s' Hs Hloop.
  - simpl in Hloop. congruence.
  - simpl in Hloop. destruct (i <? n)%nat; [|congruence].
    destruct (body i s) as [s1|] eqn:Hb; [|discriminate Hloop].
    simpl in Hloop. eapply IH; [|exact Hloop]. eapply Hbody; eassumption.
Qed.

Lemma walk_invariant {St : Type} (P : St → Prop)
    (step : Z * Z → St → result St) :
  (∀ ij s s', P s → step ij s = Ok s' → P s') →
  ∀ l i s s', P s → walk step i l s = Ok s' → P s'.
Proof.
  intros Hstep l. induction l as [|a|a b r IH] using pair_induction;
    intros i s s' Hs Hw; cbn [walk] in Hw.
  - congruence.
  - destruct (index3 a); discriminate Hw.
  - destruct (index3 a) as [i1|]; [|discriminate Hw]. rewrite bind_Ok in Hw.
    destruct (index3 b) as [i2|]; [|discriminate Hw]. rewrite bind_Ok in Hw.
    destruct (step (i1, i2) s) as [s1|] eqn:Hs1; [|discriminate Hw].
    rewrite bind_Ok in Hw. eapply IH; [|exact Hw]. eapply Hstep; eassumption.
Qed.

Section SideBySide.

Context {D : Type} `{DoubleOps D}.
Implicit Types (x g grad : list D) (a b : Z) (p : SimplePairwiseInteractionList D).

Lemma scatter_length (op : D → D → D) (gij : D) (dr : vec3 D) (i : Z) g g' :
  scatter op gij dr i g = Ok g' → length g' = length g.
Proof.
  unfold scatter, for_.
  apply (for_loop_invariant (λ g1, length g1 = length g)); [|reflexivity].
  intros k s s' Hs Hb.
  destruct (Array_get s _); [|discriminate Hb]. rewrite bind_Ok in Hb.
  rewrite (Array_set_length _ _ _ _ Hb). exact Hs.
Qed.

Lemma scatter_returns (op : D → D → D) (gij : D) (dr : vec3 D) (i : Z) g :
  (∀ k, (k < 3)%nat →
     0 ≤ Machine.size_add i (Z.of_nat k) < Z.of_nat (length g)) →
  ∃ g', scatter op gij dr i g = Ok g'.
Proof.
  intros Hin. unfold scatter, for_.
  assert (Hstep : ∀ (k : nat) g1, (k < 3)%nat → length g1 = length g →
    ∃ g2, (v ← Array_get g1 (Machine.size_add i (Z.of_nat k));
           Array_set g1 (Machine.size_add i (Z.of_nat k))
             (op v (gij * vec3_at dr k)%D)) = Ok g2
          ∧ length g2 = length g).
  { intros k g1 Hk Hg1. specialize (Hin k Hk).
    rewrite <- (Z2Nat.id (Machine.size_add i (Z.of_nat k))) by lia.
    rewrite read_modify_write by lia.
    eexists; split; [reflexivity|]. rewrite length_alter. exact Hg1. }
  rewrite for_loop_enter by lia.
  destruct (Hstep 0%nat g) as (g1 & -> & L1); [lia | reflexivity |]. rewrite bind_Ok.
  rewrite for_loop_enter by lia. cbn [Nat.add].
  destruct (Hstep 1%nat g1) as (g2 & -> & L2); [lia | assumption |]. rewrite bind_Ok.
  rewrite for_loop_enter by lia. cbn [Nat.add].
  destruct (Hstep 2%nat g2) as (g3 & -> & L3); [lia | assumption |]. rewrite bind_Ok.
  rewrite for_loop_exit by lia. eauto.
Qed.

(** When the three differences can be read, all six slots are inside [x]. *)
Lemma separation_Ok_inv x (i1 i2 : Z) (dr : vec3 D) :
  separation x i1 i2 = Ok dr →
  ∀ k, (k < 3)%nat →
    0 ≤ Machine.size_add i1 (Z.of_nat k) < Z.of_nat (length x)
    ∧ 0 ≤ Machine.size_add i2 (Z.of_nat k) < Z.of_nat (length x).
Proof.
  unfold separation, dr_at. intros Hsep.
  destruct (Array_get x (Machine.size_add i1 0)) eqn:A0; [|discriminate Hsep].
  rewrite bind_Ok in Hsep.
  destruct (Array_get x (Machine.size_add i2 0)) eqn:B0; [|discriminate Hsep].
  rewrite !bind_Ok in Hsep.
  destruct (Array_get x (Machine.size_add i1 1)) eqn:A1; [|discriminate Hsep].
  rewrite bind_Ok in Hsep.
  destruct (Array_get x (Machine.size_add i2 1)) eqn:B1; [|discriminate Hsep].
  rewrite !bind_Ok in Hsep.
  destruct (Array_get x (Machine.size_add i1 2)) eqn:A2; [|discriminate Hsep].
  rewrite bind_Ok in Hsep.
  destruct (Array_get x (Machine.size_add i2 2)) eqn:B2; [|discriminate Hsep].
  apply Array_get_Ok_inv in A0, B0, A1, B1, A2, B2.
  intros k Hk. destruct k as [|[|[|k]]];
    [ change (Z.of_nat 0) with 0 | change (Z.of_nat 1) with 1
    | change (Z.of_nat 2) with 2 | ]; lia.
Qed.

(** One pair: the gradient body returns exactly when the energy body does,
    with the same energy when the law is consistent. *)
Lemma tails_agree p x (ij : Z * Z) (e : D) g :
  (∀ r2, energy (_interaction p) r2 = (energy_gradient (_interaction p) r2).1) →
  length g = length x →
  (∃ e' g', energy_tail p x ij e = Ok e'
            ∧ gradient_tail p x ij (e, g) = Ok (e', g')
            ∧ length g' = length x)
  ∨ (∃ f f', energy_tail p x ij e = Fault f
             ∧ gradient_tail p x ij (e, g) = Fault f').
Proof.
  intros Hlaw Hg. destruct ij as [i1 i2]. unfold energy_tail, gradient_tail.
  destruct (separation x i1 i2) as [dr|f] eqn:Hsep.
  - left. rewrite !bind_Ok. cbv zeta.
    pose proof (separation_Ok_inv x i1 i2 dr Hsep) as Hin.
    destruct (scatter_returns d_sub (energy_gradient (_interaction p) (norm2 dr)).2
                dr i1 g) as [g1 Hg1].
    { intros k Hk. rewrite Hg. apply Hin, Hk. }
    cbn [snd]. rewrite Hg1, bind_Ok.
    pose proof (scatter_length _ _ _ _ _ _ Hg1) as L1.
    destruct (scatter_returns d_add (energy_gradient (_interaction p) (norm2 dr)).2
                dr i2 g1) as [g2 Hg2].
    { intros k Hk. rewrite L1, Hg. apply Hin, Hk. }
    rewrite Hg2, bind_Ok.
    pose proof (scatter_length _ _ _ _ _ _ Hg2) as L2.
    eexists _, g2. split; [reflexivity|]. split.
    + cbn [fst]. rewrite Hlaw. reflexivity.
    + congruence.
  - right. exists f, f. split; reflexivity.
Qed.

Lemma walks_agree p x :
  (∀ r2, energy (_interaction p) r2 = (energy_gradient (_interaction p) r2).1) →
  ∀ l i (e : D) g, length g = length x →
    returned (walk (energy_tail p x) i l e)
    = fst <$> returned (walk (gradient_tail p x) i l (e, g)).
Proof.
  intros Hlaw l. induction l as [|a|a b r IH] using pair_induction;
    intros i e g Hg; cbn [walk].
  - reflexivity.
  - destruct (index3 a); reflexivity.
  - destruct (index3 a) as [i1|]; [|reflexivity]. rewrite !bind_Ok.
    destruct (index3 b) as [i2|]; [|reflexivity]. rewrite !bind_Ok.
    destruct (tails_agree p x (i1, i2) e g Hlaw Hg)
      as [(e' & g' & -> & -> & Hg') | (f & f' & -> & ->)].
    + rewrite !bind_Ok. apply IH. exact Hg'.
    + reflexivity.
Qed.

(** An index whose three slots can be read passes the debug assertion. *)
Lemma readable_index_bounded x a (i1 : Z) :
  addressable x → index3 a = Ok i1 →
  0 ≤ Machine.size_add i1 2 < Z.of_nat (length x) →
  a < Machine.to_long (Z.of_nat (length x) / 3).
Proof.
  intros Hx Hidx Hin. unfold addressable in Hx.
  assert (Hq0 : 0 ≤ Z.of_nat (length x) / 3) by (apply Z.div_pos; lia).
  assert (Hu : Z.of_nat (length x) / 3 ≤ Z.of_nat (length x))
    by (apply Z.div_le_upper_bound; lia).
  rewrite to_long_small by lia.
  destruct (Z.lt_ge_cases a 0) as [Hneg|Hpos]; [lia|].
  unfold index3, Machine.in_long_range in Hidx.
  destruct (Z.leb_spec Machine.LONG_MIN (3 * a));
    destruct (Z.leb_spec (3 * a) Machine.LONG_MAX);
    simpl in Hidx; try discriminate Hidx.
  assert (i1 = 3 * a) as ->.
  { unfold Machine.to_size_t, Machine.size_t_modulus, Machine.LONG_MAX in *.
    rewrite Z.mod_small in Hidx by lia. congruence. }
  rewrite size_add_small in Hin
    by (unfold Machine.size_t_modulus, Machine.LONG_MAX in *; lia).
  assert (a + 1 ≤ Z.of_nat (length x) / 3)
    by (apply Z.div_le_lower_bound; lia).
  lia.
Qed.

Lemma energy_walk_bounded p x :
  addressable x →
  ∀ l i (e e' : D),
    walk (energy_tail p x) i l e = Ok e' →
    Forall (λ a, a < Machine.to_long (Z.of_nat (length x) / 3)) l.
Proof.
  intros Hx l. induction l as [|a|a b r IH] using pair_induction;
    intros i e e' Hw; cbn [walk] in Hw.
  - constructor.
  - destruct (index3 a); discriminate Hw.
  - destruct (index3 a) as [i1|] eqn:Ha; [|discriminate Hw]. rewrite bind_Ok in Hw.
    destruct (index3 b) as [i2|] eqn:Hb; [|discriminate Hw]. rewrite bind_Ok in Hw.
    destruct (energy_tail p x (i1, i2) e) as [e1|] eqn:He; [|discriminate Hw].
    rewrite bind_Ok in Hw. unfold energy_tail in He.
    destruct (separation x i1 i2) as [dr|] eqn:Hsep; [|discriminate He].
    destruct (separation_Ok_inv x i1 i2 dr Hsep 2%nat) as [H1 H2]; [lia|].
    repeat constructor.
    + exact (readable_index_bounded x a i1 Hx Ha H1).
    + exact (readable_index_bounded x b i2 Hx Hb H2).
    + exact (IH _ _ _ Hw).
Qed.

(** The gradient buffer enters the main loop zeroed, whatever it held. *)
Lemma get_energy_gradient_zeroed (ndebug : bool) p x grad :
  length grad = length x →
  get_energy_gradient ndebug p x grad
  = get_energy_gradient ndebug p x (replicate (length x) d_zero).
Proof.
  intros Hg. unfold get_energy_gradient.
  rewrite length_replicate, Hg.
  rewrite !zero_fill by (assumption || apply length_replicate). reflexivity.
Qed.

Lemma get_energy_gradient_length (ndebug : bool) p x grad (e : D) g' :
  length grad = length x →
  get_energy_gradient ndebug p x grad = Ok (e, g') → length g' = length x.
Proof.
  intros Hg. unfold get_energy_gradient.
  rewrite Hg, Nat.eqb_refl.
  assert (Ha : assert_ ndebug true = Ok tt) by (destruct ndebug; reflexivity).
  rewrite Ha, bind_Ok. rewrite zero_fill by assumption. rewrite bind_Ok.
  intros Hrun.
  assert (Hw : walk (gradient_tail p x) 0 (_ilist p)
                 (d_zero, replicate (length x) d_zero) = Ok (e, g')).
  { rewrite <- main_loop_walk.
    destruct (if ndebug then _ else _) as [[]|]; [exact Hrun | discriminate Hrun]. }
  apply (walk_invariant (λ s : D * list D, length s.2 = length x)) in Hw;
    [exact Hw | | simpl; apply length_replicate].
  intros [i1 i2] s s' Hs Hstep. unfold gradient_tail in Hstep.
  destruct (separation x i1 i2) as [dr|]; [|discriminate Hstep].
  rewrite bind_Ok in Hstep. cbv zeta in Hstep.
  destruct (scatter d_sub _ dr i1 s.2) as [g1|] eqn:Hg1; [|discriminate Hstep].
  rewrite bind_Ok in Hstep.
  destruct (scatter d_add _ dr i2 g1) as [g2|] eqn:Hg2; [|discriminate Hstep].
  rewrite bind_Ok in Hstep.
  assert (s' = ((s.1 + (energy_gradient (_interaction p) (norm2 dr)).1)%D, g2))
    as -> by (unfold mret, result_ret in Hstep; congruence).
  simpl. rewrite (scatter_length _ _ _ _ _ _ Hg2), (scatter_length _ _ _ _ _ _ Hg1).
  exact Hs.
Qed.

End SideBySide.

(** ** The gradient buffer slot by slot *)

Section Slots.

Context {D : Type} `{DoubleOps D}.
Implicit Types (x g grad : list D) (a b q : Z) (p : SimplePairwiseInteractionList D).

Lemma lookup_update3 (op : D → D → D) (t : nat → D) a g q (k : nat) :
  0 ≤ a → 0 ≤ q → (k < 3)%nat →
  update3 op t a g !! slot q k
  = if decide (a = q) then (λ v, op v (t k)) <$> g !! slot q k
    else g !! slot q k.
Proof.
  intros Ha Hq Hk. unfold update3. rewrite !list_lookup_alter.
  destruct (decide (a = q)) as [->|Hne].
  - destruct k as [|[|[|k]]]; [ | | | lia];
      repeat case_decide; try (unfold slot in *; lia); reflexivity.
  - repeat case_decide; try (unfold slot in *; lia); reflexivity.
Qed.

Lemma lookup_pair_scatter (law : pairwise_interaction D) x g (ab : Z * Z) q
    (k : nat) :
  0 ≤ ab.1 → 0 ≤ ab.2 → 0 ≤ q → (k < 3)%nat →
  pair_scatter law x g ab !! slot q k
  = (λ v, slot_step law x q k v ab) <$> g !! slot q k.
Proof.
  intros Ha Hb Hq Hk. unfold pair_scatter, slot_step.
  rewrite !lookup_update3 by assumption.
  repeat case_decide; destruct (g !! slot q k); reflexivity.
Qed.

Lemma lookup_fold_gradient (law : pairwise_interaction D) x q (k : nat) :
  0 ≤ q → (k < 3)%nat →
  ∀ l, Forall (λ a, 0 ≤ a) l →
  ∀ s : D * list D,
    (fold_left (gradient_step law x) (pairs l) s).2 !! slot q k
    = (λ v, fold_left (slot_step law x q k) (pairs l) v) <$> s.2 !! slot q k.
Proof.
  intros Hq Hk l. induction l as [|a|a b r IH] using pair_induction;
    intros Hpos s; cbn [pairs fold_left].
  - destruct (s.2 !! slot q k); reflexivity.
  - destruct (s.2 !! slot q k); reflexivity.
  - apply Forall_cons in Hpos as [Ha Hpos]. apply Forall_cons in Hpos as [Hb Hpos].
    rewrite IH by assumption. cbn [gradient_step snd].
    rewrite lookup_pair_scatter by assumption.
    destruct (s.2 !! slot q k); reflexivity.
Qed.

(** Pairs that do not contain [q] leave its slots alone. *)
Lemma fold_slot_step_filter (law : pairwise_interaction D) x q (k : nat)
    (l : list (Z * Z)) (v : D) :
  fold_left (slot_step law x q k) (filter (λ ab, ab.1 = q ∨ ab.2 = q) l) v
  = fold_left (slot_step law x q k) l v.
Proof.
  revert v. induction l as [|ab l IH]; intros v; [reflexivity|].
  rewrite filter_cons. case_decide as Hc; cbn [fold_left].
  - apply IH.
  - rewrite IH. f_equal. unfold slot_step.
    rewrite !decide_False by tauto. reflexivity.
Qed.

Lemma pairs_elem (l : list Z) (ab : Z * Z) :
  ab ∈ pairs l → ab.1 ∈ l ∧ ab.2 ∈ l.
Proof.
  induction l as [|a|a b r IH] using pair_induction; cbn [pairs]; intros Hin.
  - apply elem_of_nil in Hin. contradiction.
  - apply elem_of_nil in Hin. contradiction.
  - apply elem_of_cons in Hin as [-> | Hin].
    + simpl. split; [left | right; left].
    + destruct (IH Hin). split; right; right; assumption.
Qed.

Lemma pairs_app (l1 l2 : list Z) :
  Nat.even (length l1) = true → pairs (l1 ++ l2) = pairs l1 ++ pairs l2.
Proof.
  induction l1 as [|a|a b r IH] using pair_induction; intros Hev.
  - reflexivity.
  - discriminate Hev.
  - simpl. rewrite IH by exact Hev. reflexivity.
Qed.

Lemma length_pairs (l : list Z) (K : nat) :
  length l = (2 * K)%nat → length (pairs l) = K.
Proof.
  revert K. induction l as [|a|a b r IH] using pair_induction; intros K HK.
  - simpl in *. lia.
  - simpl in HK. lia.
  - destruct K as [|K]; [simpl in HK; lia|].
    simpl. rewrite (IH K); [reflexivity | simpl in HK; lia].
Qed.

End Slots.

(** ** Squared differences on IEEE doubles

    The sign of a rounded result is the sign handed to the rounding function,
    so exchanging the operands of a subtraction changes at most the sign of
    the difference, and the square of the difference is the same. *)

Section SignSymmetry.

Variables prec emax : Z.

Lemma binary_round_aux_sign (s : bool) (m e : Z) (l : location) :
  binary_round_aux prec emax (negb s) m e l
  = SFopp (binary_round_aux prec emax s m e l).
Proof.
  unfold binary_round_aux.
  destruct (shr_fexp prec emax m e l) as [mrs1 e1].
  destruct (shr_fexp prec emax _ e1 loc_Exact) as [mrs2 e2].
  destruct (shr_m mrs2); [reflexivity | | reflexivity].
  destruct (Z.leb e2 (emax - prec)); reflexivity.
Qed.

Lemma binary_round_sign (s : bool) (m : positive) (e : Z) :
  binary_round prec emax (negb s) m e = SFopp (binary_round prec emax s m e).
Proof.
  unfold binary_round. destruct (shl_align m e _) as [mz ez].
  apply binary_round_aux_sign.
Qed.

Lemma binary_normalize_opp (m e : Z) :
  binary_normalize prec emax (- m) e false
  = binary_normalize prec emax m e false
  ∨ binary_normalize prec emax (- m) e false
    = SFopp (binary_normalize prec emax m e false).
Proof.
  destruct m as [|m|m]; simpl.
  - left. reflexivity.
  - right. apply (binary_round_sign false).
  - right. rewrite (binary_round_sign false).
    destruct (binary_round prec emax false m e); simpl;
      rewrite ?negb_involutive; reflexivity.
Qed.

Lemma SFsub_swap (u v : spec_float) :
  SFsub prec emax v u = SFsub prec emax u v
  ∨ SFsub prec emax v u = SFopp (SFsub prec emax u v).
Proof.
  destruct u as [su|su| |su mu eu], v as [sv|sv| |sv mv ev];
    try (repeat match goal with b : bool |- _ => destruct b end;
         simpl; auto; fail).
  cbn [SFsub]. rewrite (Z.min_comm ev eu).
  set (U := cond_Zopp su _). set (V := cond_Zopp sv _).
  replace (V - U) with (- (U - V)) by lia.
  apply binary_normalize_opp.
Qed.

Lemma SFmul_opp_opp (z : spec_float) :
  SFmul prec emax (SFopp z) (SFopp z) = SFmul prec emax z z.
Proof.
  destruct z as [s|s| |s m e]; simpl; try reflexivity; destruct s; reflexivity.
Qed.

End SignSymmetry.

Global Instance binary64_square_symmetric : SquareSymmetric float.
Proof.
  intros u v. apply Prim2SF_inj. cbn [d_mul d_sub binary64].
  rewrite !mul_spec, !sub_spec. unfold SF64mul, SF64sub.
  destruct (SFsub_swap prec emax (Prim2SF u) (Prim2SF v)) as [-> | ->].
  - reflexivity.
  - apply SFmul_opp_opp.
Qed.

Section Symmetric.

Context {D : Type} `{SquareSymmetric D}.
Implicit Types (x g grad : list D) (a b : Z).

Lemma pair_r2_symmetric x a b : pair_r2 x b a = pair_r2 x a b.
Proof.
  unfold pair_r2, norm2, pair_dr. cbn [vec3_at fst snd].
  rewrite (square_difference (pos x a 0) (pos x b 0)).
  rewrite (square_difference (pos x a 1) (pos x b 1)).
  rewrite (square_difference (pos x a 2) (pos x b 2)).
  reflexivity.
Qed.

(** The energy accumulated by the gradient loop, on its own. *)
Lemma fold_gradient_energy (law : pairwise_interaction D) x
    (prs : list (Z * Z)) (s : D * list D) :
  (fold_left (gradient_step law x) prs s).1
  = fold_left d_add
      (map (λ ab, (energy_gradient law (pair_r2 x ab.1 ab.2)).1) prs) s.1.
Proof.
  revert s. induction prs as [|ab prs IH]; intros s; [reflexivity|].
  cbn [fold_left map]. rewrite IH. reflexivity.
Qed.

End Symmetric.

(** ** Exact arithmetic *)

Section Exact.

Context {D : Type} `{ExactArithmetic D}.
Implicit Types (x g grad : list D) (a b : Z) (p : SimplePairwiseInteractionList D).

Add Ring exact_arithmetic_ring : exact_ring.

Global Instance exact_square_symmetric : SquareSymmetric D.
Proof. intros u v. ring. Qed.

Lemma sum_over_ext (f f' : nat → D) (l : list nat) :
  (∀ q, q ∈ l → f' q = f q) → sum_over f' l = sum_over f l.
Proof.
  induction l as [|q l IH]; intros Hext; [reflexivity|]. simpl.
  rewrite Hext by left. rewrite IH; [reflexivity|].
  intros q' Hq'. apply Hext. right. exact Hq'.
Qed.

Lemma sum_over_zero (f : nat → D) (l : list nat) :
  (∀ q, q ∈ l → f q = d_zero) → sum_over f l = d_zero.
Proof.
  induction l as [|q l IH]; intros Hz; [reflexivity|]. simpl.
  rewrite Hz by left. rewrite IH; [ring|].
  intros q' Hq'. apply Hz. right. exact Hq'.
Qed.

(** Changing one term of a sum over a range changes the sum by as much. *)
Lemma sum_over_point (f f' : nat → D) (d : D) (q0 : nat) :
  (∀ q, q ≠ q0 → f' q = f q) → f' q0 = (f q0 + d)%D →
  ∀ n s, (s ≤ q0 < s + n)%nat →
    sum_over f' (seq s n) = (sum_over f (seq s n) + d)%D.
Proof.
  intros Hother Hat. induction n as [|n IH]; intros s Hrange; [lia|].
  cbn [seq sum_over fold_right]. fold (sum_over f' (seq (S s) n)).
  fold (sum_over f (seq (S s) n)).
  destruct (decide (s = q0)) as [->|Hne].
  - rewrite Hat. rewrite (sum_over_ext f f').
    + ring.
    + intros q Hq. apply Hother. apply elem_of_seq in Hq. lia.
  - rewrite Hother by exact Hne. rewrite IH by lia. ring.
Qed.

Lemma pair_r2_swap x a b : pair_r2 x b a = pair_r2 x a b.
Proof. unfold pair_r2, norm2, pair_dr. simpl. ring. Qed.

Lemma pair_term_swap (law : pairwise_interaction D) x a b (k : nat) :
  pair_term law x (b, a) k = d_opp (pair_term law x (a, b) k).
Proof.
  unfold pair_term, pair_gij. simpl. rewrite pair_r2_swap.
  destruct k as [|[|k]]; unfold pair_dr; simpl; ring.
Qed.

Lemma slot_step_swap (law : pairwise_interaction D) x (q : Z) (k : nat) (v : D) a b :
  slot_step law x q k v (b, a) = slot_step law x q k v (a, b).
Proof.
  unfold slot_step. rewrite pair_term_swap. simpl.
  repeat case_decide; ring.
Qed.

Lemma index_as_slot (j : nat) : j = slot (Z.of_nat (j / 3)) (j mod 3).
Proof.
  unfold slot. pose proof (Nat.div_mod_eq j 3). lia.
Qed.

Lemma gradient_step_swap (law : pairwise_interaction D) x (s : D * list D) a b :
  0 ≤ a → 0 ≤ b →
  gradient_step law x s (b, a) = gradient_step law x s (a, b).
Proof.
  intros Ha Hb. unfold gradient_step. simpl. rewrite pair_r2_swap. f_equal.
  apply list_eq. intros j. rewrite (index_as_slot j).
  assert (Hk : (j mod 3 < 3)%nat) by (apply Nat.mod_upper_bound; lia).
  rewrite !lookup_pair_scatter by (simpl; lia).
  destruct (s.2 !! _); [|reflexivity]. simpl. rewrite slot_step_swap. reflexivity.
Qed.

(** One pair leaves the sum of every axis as it was. *)
Lemma axis_sum_pair_scatter (law : pairwise_interaction D) x g (N k : nat) a b :
  length g = (3 * N)%nat → (k < 3)%nat →
  0 ≤ a < Z.of_nat N → 0 ≤ b < Z.of_nat N →
  axis_sum N k (pair_scatter law x g (a, b)) = axis_sum N k g.
Proof.
  intros Hg Hk Ha Hb. unfold axis_sum.
  set (f := λ q : nat, default d_zero (g !! (3 * q + k)%nat)).
  set (t := pair_term law x (a, b) k).
  set (f1 := λ q : nat, if decide (Z.to_nat a = q) then (f q - t)%D else f q).
  set (f2 := λ q : nat, if decide (Z.to_nat b = q) then (f1 q + t)%D else f1 q).
  rewrite (sum_over_ext f2).
  - rewrite (sum_over_point f1 f2 t (Z.to_nat b)); [ | | | lia].
    + rewrite (sum_over_point f f1 (d_opp t) (Z.to_nat a)); [ring | | | lia].
      * intros q Hq. unfold f1. rewrite decide_False by congruence. reflexivity.
      * unfold f1. rewrite decide_True by reflexivity. ring.
    + intros q Hq. unfold f2. rewrite decide_False by congruence. reflexivity.
    + unfold f2. rewrite decide_True by reflexivity. reflexivity.
  - intros q Hq. apply elem_of_seq in Hq.
    replace (3 * q + k)%nat with (slot (Z.of_nat q) k) by (unfold slot; lia).
    rewrite lookup_pair_scatter by (simpl; lia).
    destruct (lookup_lt_is_Some_2 g (slot (Z.of_nat q) k)) as [v Hv];
      [unfold slot; lia|].
    unfold f2, f1, f, slot_step, t.
    replace (3 * q + k)%nat with (slot (Z.of_nat q) k) by (unfold slot; lia).
    rewrite Hv. simpl.
    repeat case_decide; try lia; reflexivity.
Qed.

Lemma axis_sum_fold (law : pairwise_interaction D) x (N k : nat) :
  (k < 3)%nat →
  ∀ l, Forall (λ a, 0 ≤ a < Z.of_nat N) l →
  ∀ s : D * list D, length s.2 = (3 * N)%nat →
    axis_sum N k (fold_left (gradient_step law x) (pairs l) s).2
    = axis_sum N k s.2.
Proof.
  intros Hk l. induction l as [|a|a b r IH] using pair_induction;
    intros Hr s Hs; cbn [pairs fold_left]; [reflexivity.. |].
  apply Forall_cons in Hr as [Ha Hr]. apply Forall_cons in Hr as [Hb Hr].
  rewrite IH by (rewrite ?length_gradient_step; assumption).
  cbn [gradient_step snd]. apply axis_sum_pair_scatter; assumption.
Qed.

Lemma axis_sum_zeros (N k n : nat) : axis_sum N k (replicate n d_zero) = d_zero.
Proof.
  unfold axis_sum. apply sum_over_zero. intros q _.
  destruct (replicate n d_zero !! (3 * q + k)%nat) as [v|] eqn:Hv; [|reflexivity].
  apply lookup_replicate in Hv as [-> _]. reflexivity.
Qed.

End Exact.

(** * The claims *)

(** C1, as the spec states it, fails: on the pair (0, 1) with the quadratic
    law the energy is 1, but the gradient written for particle 0 is not
    (-2, 0, 0) (and that of particle 1 is not (2, 0, 0)). *)
Lemma C1_spec_signs_refuted :
  ¬ (get_energy (make law_r2 [0; 1] None) two_particles = Ok 1%float
     ∧ ∃ e, get_energy_gradient true (make law_r2 [0; 1] None) two_particles
              (replicate 6 0%float)
            = Ok (e, [-2; 0; 0; 2; 0; 0]%float)).
Proof.
  intros [_ [e He]].
  apply (f_equal first_entry_positive) in He.
  vm_compute in He. discriminate He.
Qed.

(** C1 (amended): for the single pair (0, 1), the law [energy(r2) = r2],
    [energy_gradient(r2) = (r2, 2)] and the positions (0,0,0) and (1,0,0),
    [get_energy] returns 1 and [get_energy_gradient] returns 1 and writes the
    gradient (2, 0, 0) for particle 0 and (-2, 0, 0) for particle 1, whatever
    the gradient buffer held before and whether or not NDEBUG is defined. *)
Theorem C1_single_pair_quadratic (ndebug : bool) (g0 g1 g2 g3 g4 g5 : float) :
  get_energy (make law_r2 [0; 1] None) two_particles = Ok 1%float
  ∧ get_energy_gradient ndebug (make law_r2 [0; 1] None) two_particles
      [g0; g1; g2; g3; g4; g5]
    = Ok (1%float, [2; 0; 0; -2; 0; 0]%float).
Proof.
  split; [ vm_compute; reflexivity | ].
  destruct ndebug; vm_compute; reflexivity.
Qed.

Section Claims.

Context {D : Type} `{DoubleOps D}.
Implicit Types (x g grad : list D) (a b q : Z) (p : SimplePairwiseInteractionList D).

(** C2: the stored distance policy is never consulted.  Whatever policy is
    handed to the constructor (none, hence the default, or any other), both
    routines return the same outcome, gradient buffer included; the separation
    vector they use is the plain per-axis difference [pos(a) - pos(b)]. *)
Theorem C2_distance_policy_ignored (ndebug : bool)
    (law : pairwise_interaction D) (ilist : list Z)
    (dist1 dist2 : option (distance_policy D)) x grad :
  get_energy (make law ilist dist1) x = get_energy (make law ilist dist2) x
  ∧ get_energy_gradient ndebug (make law ilist dist1) x grad
    = get_energy_gradient ndebug (make law ilist dist2) x grad
  ∧ (∀ a b, addressable x → inside x a → inside x b →
       separation x (3 * a) (3 * b) = Ok (pair_dr x a b)).
Proof.
  split; [reflexivity|]. split; [reflexivity|].
  intros a b Hx [Ha Hla] [Hb Hlb]. apply separation_inside; assumption.
Qed.

(** C3: when the law's [energy] agrees with the energy component of its
    [energy_gradient], [get_energy] returns a value exactly when
    [get_energy_gradient] does on the same coordinates and a gradient buffer
    of the same length, and the two returned energies are equal. *)
Theorem C3_energy_paths_agree (ndebug : bool) p x grad :
  (∀ r2, energy (_interaction p) r2 = (energy_gradient (_interaction p) r2).1) →
  length grad = length x →
  addressable x →
  returned (get_energy p x)
  = fst <$> returned (get_energy_gradient ndebug p x grad).
Proof.
  intros Hlaw Hg Hx. rewrite get_energy_walk.
  pose proof (walks_agree p x Hlaw (_ilist p) 0%nat d_zero
                (replicate (length x) d_zero) (length_replicate _ _)) as Hsim.
  destruct ndebug.
  - rewrite get_energy_gradient_prologue by (assumption || left; reflexivity).
    exact Hsim.
  - unfold get_energy_gradient. rewrite Hg, Nat.eqb_refl.
    change (assert_ false true) with (Ok tt).
    rewrite bind_Ok, zero_fill, bind_Ok by assumption.
    destruct (for_ (length (_ilist p)) 1 _ tt) as [[]|f] eqn:Hassert.
    + rewrite bind_Ok, main_loop_walk. exact Hsim.
    + rewrite bind_Fault. cbn [returned fmap option_fmap option_map].
      destruct (walk (energy_tail p x) 0 (_ilist p) d_zero) as [e|] eqn:Hw;
        [|reflexivity].
      pose proof (energy_walk_bounded p x Hx _ _ _ _ Hw) as Hb.
      rewrite (asserts_pass _ _ Hb) in Hassert. discriminate Hassert.
Qed.

(** C4: with an empty interaction list [get_energy] returns 0 on every
    coordinate buffer, and [get_energy_gradient] returns 0 and leaves every
    entry of the gradient buffer equal to 0, whatever the buffer held. *)
Theorem C4_empty_list (ndebug : bool) (law : pairwise_interaction D)
    (dist : option (distance_policy D)) x grad :
  length grad = length x →
  get_energy (make law [] dist) x = Ok d_zero
  ∧ get_energy_gradient ndebug (make law [] dist) x grad
    = Ok (d_zero, replicate (length grad) d_zero).
Proof.
  intros Hg. split; [reflexivity|].
  rewrite get_energy_gradient_prologue;
    [ | assumption | right; constructor ].
  rewrite Hg. reflexivity.
Qed.

(** C5: [get_energy_gradient] zeroes the gradient buffer before it
    accumulates: the outcome on any buffer of the right length is the outcome
    on the all-zero buffer, hence the same for any two prior contents, and a
    second call on the buffer the first call wrote returns the same energy
    and leaves the same gradient. *)
Theorem C5_gradient_overwritten (ndebug : bool) p x grad1 grad2 :
  length grad1 = length x →
  length grad2 = length x →
  get_energy_gradient ndebug p x grad1
  = get_energy_gradient ndebug p x (replicate (length x) d_zero)
  ∧ get_energy_gradient ndebug p x grad1 = get_energy_gradient ndebug p x grad2
  ∧ (∀ (e : D) g', get_energy_gradient ndebug p x grad1 = Ok (e, g') →
       get_energy_gradient ndebug p x g' = Ok (e, g')).
Proof.
  intros H1 H2. split; [apply get_energy_gradient_zeroed, H1|]. split.
  - rewrite (get_energy_gradient_zeroed ndebug p x grad1 H1).
    rewrite (get_energy_gradient_zeroed ndebug p x grad2 H2). reflexivity.
  - intros e g' Hrun.
    pose proof (get_energy_gradient_length ndebug p x grad1 e g' H1 Hrun) as Hlen.
    rewrite (get_energy_gradient_zeroed ndebug p x g' Hlen).
    rewrite <- (get_energy_gradient_zeroed ndebug p x grad1 H1). exact Hrun.
Qed.

(** C7: on well-formed input, after [get_energy_gradient] the entry of axis
    [k] of particle [q] is the sum, taken from 0 in list order, of the
    contributions of the pairs that contain [q]: minus [gij * dr[k]] where [q]
    is the first particle of the pair, plus [gij * dr[k]] where it is the
    second. *)
Theorem C7_gradient_superposition (ndebug : bool) (N : nat) p x grad :
  valid_input N (_ilist p) x →
  length grad = length x →
  ∃ (e : D) G,
    get_energy_gradient ndebug p x grad = Ok (e, G)
    ∧ ∀ q (k : nat), 0 ≤ q < Z.of_nat N → (k < 3)%nat →
        G !! slot q k
        = Some (fold_left (slot_step (_interaction p) x q k)
                  (filter (λ ab, ab.1 = q ∨ ab.2 = q) (pairs (_ilist p)))
                  d_zero).
Proof.
  intros Hv Hg.
  pose proof (get_energy_gradient_valid ndebug N p x grad Hv Hg) as Hrun.
  destruct (fold_left _ _ _) as [e G] eqn:Hfold in Hrun.
  exists e, G. split; [exact Hrun|].
  replace G with (e, G).2 by reflexivity. rewrite <- Hfold.
  intros q k Hq Hk. rewrite fold_slot_step_filter.
  rewrite lookup_fold_gradient; [ | lia | assumption | ].
  - cbn [snd]. rewrite lookup_replicate_2; [reflexivity|].
    rewrite (coords_length _ _ _ Hv). unfold slot. lia.
  - eapply Forall_impl; [exact (ilist_range _ _ _ Hv)|]. simpl. lia.
Qed.

(** C8: on well-formed input with [2K] entries, [get_energy] returns the sum,
    taken from 0 in list order, of the [K] pair energies
    [energy(|pos(a) - pos(b)|^2)]; each of them is what [get_energy] adds to 0
    when the list consists of that pair alone. *)
Theorem C8_energy_decomposes (N K : nat) (law : pairwise_interaction D)
    (ilist : list Z) (dist : option (distance_policy D)) x :
  valid_input N ilist x →
  length ilist = (2 * K)%nat →
  get_energy (make law ilist dist) x
  = Ok (sum_in_order (map (pair_energy law x) (pairs ilist)))
  ∧ length (pairs ilist) = K
  ∧ (∀ ab, ab ∈ pairs ilist →
       get_energy (make law [ab.1; ab.2] dist) x
       = Ok (d_zero + pair_energy law x ab)%D).
Proof.
  intros Hv HK. split; [exact (get_energy_valid N (make law ilist dist) x Hv)|].
  split; [exact (length_pairs ilist K HK)|].
  intros [a b] Hab. apply pairs_elem in Hab as [Ha Hb]. simpl in Ha, Hb.
  pose proof (ilist_range _ _ _ Hv) as Hr. rewrite Forall_forall in Hr.
  assert (Hv2 : valid_input N [a; b] x).
  { constructor; [reflexivity | | apply Hv | apply Hv].
    repeat constructor; apply Hr; assumption. }
  exact (get_energy_valid N (make law [a; b] dist) x Hv2).
Qed.

(** C10: when every entry of the list is a particle index below [N], the
    coordinate buffer has [3N] entries and the gradient buffer is as long,
    then on a list of even length both routines return (no access leaves its
    container, no assertion fails), and on a list of odd length both stop in
    the last iteration at the read of [_ilist[nlist]], one past the end. *)
Theorem C10_accesses_in_bounds (ndebug : bool) (N : nat) p x grad :
  Forall (λ a, 0 ≤ a < Z.of_nat N) (_ilist p) →
  length x = (3 * N)%nat →
  addressable x →
  length grad = length x →
  (Nat.even (length (_ilist p)) = true →
     (∃ e : D, get_energy p x = Ok e)
     ∧ (∃ (e : D) G, get_energy_gradient ndebug p x grad = Ok (e, G)))
  ∧ (Nat.odd (length (_ilist p)) = true →
       get_energy p x = Fault (VectorOutOfRange (length (_ilist p)))
       ∧ get_energy_gradient ndebug p x grad
         = Fault (VectorOutOfRange (length (_ilist p)))).
Proof.
  intros Hr Hlen Hx Hg.
  assert (Hin : Forall (inside x) (_ilist p)).
  { eapply Forall_impl; [exact Hr|]. intros a Ha. unfold inside. simpl in Ha. lia. }
  split.
  - intros Hev.
    assert (Hv : valid_input N (_ilist p) x) by (constructor; assumption).
    split; [eexists; exact (get_energy_valid N p x Hv)|].
    pose proof (get_energy_gradient_valid ndebug N p x grad Hv Hg) as Hrun.
    destruct (fold_left _ _ _) as [e G] in Hrun. exists e, G. exact Hrun.
  - intros Hodd. split.
    + rewrite get_energy_walk.
      apply (walk_odd (λ _, True) (energy_tail p x) x Hx); try assumption; [|exact I].
      intros a b s _ Ha Hb. eexists. split; [|exact I].
      apply energy_tail_inside; assumption.
    + rewrite get_energy_gradient_prologue;
        [ | assumption | right; apply inside_bounded; assumption ].
      apply (walk_odd (λ s : D * list D, length s.2 = length x)
               (gradient_tail p x) x Hx); try assumption.
      * intros a b s Hs Ha Hb. eexists. split.
        -- apply gradient_tail_inside; assumption.
        -- rewrite length_gradient_step. exact Hs.
      * simpl. apply length_replicate.
Qed.

End Claims.

(** C6, as the spec states it, fails: with the pair (0, 1) replaced by (1, 0)
    the gradient is not the negation of the gradient of (0, 1). *)
Lemma C6_swap_does_not_negate :
  ¬ ∃ e G,
      get_energy_gradient true (make law_r2 [0; 1] None) two_particles
        (replicate 6 0%float) = Ok (e, G)
      ∧ get_energy_gradient true (make law_r2 [1; 0] None) two_particles
          (replicate 6 0%float) = Ok (e, map PrimFloat.opp G).
Proof.
  intros (e & G & H01 & H10).
  assert (HG : G = [2; 0; 0; -2; 0; 0]%float).
  { apply (f_equal (λ r, match r with Ok (_, G') => G' | Fault _ => [] end))
      in H01.
    vm_compute in H01. symmetry. exact H01. }
  subst G. apply (f_equal first_entry_positive) in H10.
  vm_compute in H10. discriminate H10.
Qed.

Section SwapClaim.

Context {D : Type} `{SquareSymmetric D}.
Implicit Types (x g grad : list D) (a b : Z).

(** C6 (amended): on well-formed input, replacing a pair (a, b) of the
    interaction list by (b, a) leaves the energy returned by both routines
    unchanged; in exact arithmetic it leaves the gradient unchanged as well
    (it does not negate it): the loop body of the pair (b, a) does to every
    gradient slot what the body of (a, b) does, since [dr] changes sign
    together with the roles of the two particles. *)
Theorem C6_swap_leaves_result (ndebug : bool) (N : nat)
    (law : pairwise_interaction D) (dist : option (distance_policy D))
    (pre post : list Z) a b x grad :
  Nat.even (length pre) = true →
  valid_input N (pre ++ a :: b :: post) x →
  length grad = length x →
  get_energy (make law (pre ++ b :: a :: post) dist) x
  = get_energy (make law (pre ++ a :: b :: post) dist) x
  ∧ (∃ (e : D) G G',
       get_energy_gradient ndebug (make law (pre ++ a :: b :: post) dist) x grad
       = Ok (e, G)
       ∧ get_energy_gradient ndebug (make law (pre ++ b :: a :: post) dist) x grad
         = Ok (e, G')
       ∧ (ExactArithmetic D → G' = G))
  ∧ (ExactArithmetic D →
     ∀ s : D * list D, length s.2 = length x →
       gradient_tail (make law (pre ++ a :: b :: post) dist) x (3 * b, 3 * a) s
       = gradient_tail (make law (pre ++ a :: b :: post) dist) x (3 * a, 3 * b) s).
Proof.
  intros Hpre Hv Hg.
  pose proof (ilist_range _ _ _ Hv) as Hr.
  apply Forall_app in Hr as [Hrpre Hr].
  apply Forall_cons in Hr as [Ha Hr]. apply Forall_cons in Hr as [Hb Hrpost].
  assert (Hv' : valid_input N (pre ++ b :: a :: post) x).
  { constructor; [ | | apply Hv | apply Hv].
    - rewrite <- (ilist_even _ _ _ Hv). rewrite !length_app. reflexivity.
    - apply Forall_app. split; [assumption|].
      apply Forall_cons. split; [assumption|].
      apply Forall_cons. split; assumption. }
  assert (Hpairs : ∀ c d, pairs (pre ++ c :: d :: post)
                         = pairs pre ++ (c, d) :: pairs post)
    by (intros c d; rewrite pairs_app by exact Hpre; reflexivity).
  split; [|split].
  - rewrite (get_energy_valid N (make law (pre ++ b :: a :: post) dist) x Hv').
    rewrite (get_energy_valid N (make law (pre ++ a :: b :: post) dist) x Hv).
    cbn [_ilist _interaction make]. rewrite !Hpairs, !map_app. cbn [map].
    unfold pair_energy at 2 5. cbn [fst snd]. rewrite pair_r2_symmetric.
    reflexivity.
  - pose proof (get_energy_gradient_valid ndebug N
                  (make law (pre ++ a :: b :: post) dist) x grad Hv Hg) as Hrun.
    pose proof (get_energy_gradient_valid ndebug N
                  (make law (pre ++ b :: a :: post) dist) x grad Hv' Hg) as Hrun'.
    cbn [_ilist _interaction make] in Hrun, Hrun'.
    set (s0 := (d_zero, replicate (length x) d_zero)) in *.
    set (r := fold_left (gradient_step law x)
                (pairs (pre ++ a :: b :: post)) s0) in *.
    set (r' := fold_left (gradient_step law x)
                 (pairs (pre ++ b :: a :: post)) s0) in *.
    assert (He : r'.1 = r.1).
    { unfold r, r'. rewrite !fold_gradient_energy, !Hpairs, !map_app.
      cbn [map fst snd]. rewrite pair_r2_symmetric. reflexivity. }
    exists r.1, r.2, r'.2. split; [rewrite <- surjective_pairing; exact Hrun|].
    split; [rewrite <- He, <- surjective_pairing; exact Hrun'|].
    intros ex. unfold r, r'. rewrite !Hpairs, !fold_left_app.
    cbn [fold_left]. rewrite gradient_step_swap by lia. reflexivity.
  - intros ex s Hs.
    assert (Hia : inside x a)
      by (unfold inside; rewrite (coords_length _ _ _ Hv); lia).
    assert (Hib : inside x b)
      by (unfold inside; rewrite (coords_length _ _ _ Hv); lia).
    rewrite !gradient_tail_inside by (assumption || apply Hv).
    cbn [_interaction make]. rewrite gradient_step_swap by lia. reflexivity.
Qed.

End SwapClaim.

Section ExactClaims.

Context {D : Type} `{ExactArithmetic D}.
Implicit Types (x g grad : list D) (a b : Z) (p : SimplePairwiseInteractionList D).

Add Ring exact_claims_ring : exact_ring.

(** C9: the two scatter loops of an iteration apply opposite updates: the
    first subtracts the product [gij * dr[k]] from slot [k] of the first
    particle, the second adds the same product to slot [k] of the second
    particle; consequently, in exact arithmetic and on well-formed input,
    every axis of the gradient written by [get_energy_gradient] sums to zero
    over the particles. *)
Theorem C9_opposite_updates (ndebug : bool) (N : nat) p x grad :
  valid_input N (_ilist p) x →
  length grad = length x →
  (∀ a b (gij : D) (dr : vec3 D) g (k : nat),
     0 ≤ a < Z.of_nat N → 0 ≤ b < Z.of_nat N → (k < 3)%nat →
     length g = length x →
     ∃ (g1 g2 : list D) (va vb : D),
       scatter d_sub gij dr (3 * a) g = Ok g1
       ∧ scatter d_add gij dr (3 * b) g1 = Ok g2
       ∧ g !! slot a k = Some va
       ∧ g1 !! slot a k = Some (va - gij * vec3_at dr k)%D
       ∧ g1 !! slot b k = Some vb
       ∧ g2 !! slot b k = Some (vb + gij * vec3_at dr k)%D
       ∧ ((va - gij * vec3_at dr k) - va)%D
         = d_opp ((vb + gij * vec3_at dr k) - vb)%D)
  ∧ ∃ (e : D) G,
      get_energy_gradient ndebug p x grad = Ok (e, G)
      ∧ ∀ k : nat, (k < 3)%nat → axis_sum N k G = d_zero.
Proof.
  intros Hv Hg. pose proof (coords_length _ _ _ Hv) as Hlen.
  pose proof (coords_addressable _ _ _ Hv) as Hx. split.
  - intros a b gij dr g k Ha Hb Hk Hlg.
    set (t := λ k : nat, (gij * vec3_at dr k)%D).
    destruct (lookup_lt_is_Some_2 g (slot a k)) as [va Hva];
      [unfold slot; lia|].
    destruct (lookup_lt_is_Some_2 (update3 d_sub t a g) (slot b k))
      as [vb Hvb]; [rewrite length_update3; unfold slot; lia|].
    exists (update3 d_sub t a g), (update3 d_add t b (update3 d_sub t a g)), va, vb.
    split; [apply (scatter_inside _ _ _ x); assumption || lia|].
    split; [apply (scatter_inside _ _ _ x);
              rewrite ?length_update3; assumption || lia|].
    split; [exact Hva|].
    split; [rewrite lookup_update3, decide_True, Hva by (reflexivity || lia);
            reflexivity|].
    split; [exact Hvb|].
    split; [rewrite lookup_update3, decide_True, Hvb by (reflexivity || lia);
            reflexivity|].
    ring.
  - pose proof (get_energy_gradient_valid ndebug N p x grad Hv Hg) as Hrun.
    destruct (fold_left _ _ _) as [e G] eqn:Hfold in Hrun.
    exists e, G. split; [exact Hrun|]. intros k Hk.
    replace G with (e, G).2 by reflexivity. rewrite <- Hfold.
    rewrite axis_sum_fold;
      [ | assumption | exact (ilist_range _ _ _ Hv)
        | simpl; rewrite length_replicate; exact Hlen ].
    apply axis_sum_zeros.
Qed.

End ExactClaims.

(** * The claims on concrete inputs *)

(** Particle 0 belongs to the pairs (0, 1) and (0, 2): its gradient holds
    both contributions, and every axis sums to zero. *)
Example two_pairs_share_a_particle :
  get_energy_gradient false (make law_r2_exact [0; 1; 0; 2] None)
    three_particles (replicate 9 5)
  = Ok (5, [2; 4; 0; -2; 0; 0; 0; -4; 0]).
Proof. vm_compute. reflexivity. Qed.

(** An index below zero wraps to a slot far outside the buffer. *)
Example negative_index_faults :
  get_energy (make law_r2_exact [-1; 0] None) three_particles
  = Fault (ArrayOutOfRange (2 ^ 64 - 3)).
Proof. vm_compute. reflexivity. Qed.

(** In a debug build the assertion on the indices stops the evaluation. *)
Example index_assertion_fails :
  get_energy_gradient false (make law_r2_exact [0; 3] None)
    three_particles (replicate 9 0)
  = Fault AssertionFailed.
Proof. vm_compute. reflexivity. Qed.

(** The theorems above applied to concrete evaluators: two particles on
    doubles, three particles in exact arithmetic. *)

Lemma C2_on_two_particles :
  get_energy (make law_r2 [0; 1] None) two_particles
  = get_energy (make law_r2 [0; 1] (Some first_position)) two_particles
  ∧ get_energy_gradient false (make law_r2 [0; 1] None) two_particles
      (replicate 6 7%float)
    = get_energy_gradient false (make law_r2 [0; 1] (Some first_position))
        two_particles (replicate 6 7%float)
  ∧ separation two_particles (3 * 0) (3 * 1) = Ok (pair_dr two_particles 0 1).
Proof.
  destruct (C2_distance_policy_ignored false law_r2 [0; 1] None
              (Some first_position) two_particles (replicate 6 7%float))
    as (He & Hg & Hsep).
  split; [exact He|]. split; [exact Hg|].
  apply Hsep; [buffer_addressable | particle_inside | particle_inside].
Defined.

Lemma C3_on_two_particles :
  returned (get_energy (make law_r2 [0; 1] None) two_particles)
  = fst <$> returned (get_energy_gradient false (make law_r2 [0; 1] None)
                        two_particles (replicate 6 7%float)).
Proof.
  assert (Hx : addressable two_particles) by buffer_addressable.
  exact (C3_energy_paths_agree false (make law_r2 [0; 1] None) two_particles
           (replicate 6 7%float) (λ r2, eq_refl) eq_refl Hx).
Defined.

Lemma C4_on_two_particles :
  get_energy (make law_r2 [] None) two_particles = Ok 0%float
  ∧ get_energy_gradient false (make law_r2 [] None) two_particles
      (replicate 6 7%float)
    = Ok (0%float, replicate 6 0%float).
Proof.
  exact (C4_empty_list false law_r2 None two_particles (replicate 6 7%float)
           eq_refl).
Defined.

Lemma C5_on_two_particles :
  get_energy_gradient false (make law_r2 [0; 1] None) two_particles
    (replicate 6 7%float)
  = get_energy_gradient false (make law_r2 [0; 1] None) two_particles
      (replicate 6 (-1)%float).
Proof.
  exact (proj1 (proj2 (C5_gradient_overwritten false
                         (make law_r2 [0; 1] None) two_particles
                         (replicate 6 7%float) (replicate 6 (-1)%float)
                         eq_refl eq_refl))).
Defined.

Lemma C7_on_three_particles :
  ∃ e G,
    get_energy_gradient false (make law_r2_exact [0; 1; 0; 2] None)
      three_particles (replicate 9 5) = Ok (e, G)
    ∧ ∀ q (k : nat), 0 ≤ q < Z.of_nat 3 → (k < 3)%nat →
        G !! slot q k
        = Some (fold_left (slot_step law_r2_exact three_particles q k)
                  (filter (λ ab, ab.1 = q ∨ ab.2 = q) (pairs [0; 1; 0; 2]))
                  0).
Proof.
  assert (Hv : valid_input 3 [0; 1; 0; 2] three_particles) by well_formed.
  exact (C7_gradient_superposition false 3
           (make law_r2_exact [0; 1; 0; 2] None) three_particles
           (replicate 9 5) Hv eq_refl).
Defined.

Lemma C8_on_three_particles :
  get_energy (make law_r2_exact [0; 1; 0; 2] None) three_particles
  = Ok (sum_in_order
          (map (pair_energy law_r2_exact three_particles)
             (pairs [0; 1; 0; 2])))
  ∧ length (pairs [0; 1; 0; 2]) = 2%nat
  ∧ (∀ ab, ab ∈ pairs [0; 1; 0; 2] →
       get_energy (make law_r2_exact [ab.1; ab.2] None) three_particles
       = Ok (0 + pair_energy law_r2_exact three_particles ab)).
Proof.
  assert (Hv : valid_input 3 [0; 1; 0; 2] three_particles) by well_formed.
  exact (C8_energy_decomposes 3 2 law_r2_exact [0; 1; 0; 2] None
           three_particles Hv eq_refl).
Defined.

Lemma C9_on_three_particles :
  ∃ e G,
    get_energy_gradient false (make law_r2_exact [0; 1; 0; 2] None)
      three_particles (replicate 9 5) = Ok (e, G)
    ∧ ∀ k : nat, (k < 3)%nat → axis_sum 3 k G = 0.
Proof.
  assert (Hv : valid_input 3 [0; 1; 0; 2] three_particles) by well_formed.
  exact (proj2 (C9_opposite_updates false 3
                  (make law_r2_exact [0; 1; 0; 2] None) three_particles
                  (replicate 9 5) Hv eq_refl)).
Defined.

Lemma C10_on_two_particles :
  ((∃ e, get_energy (make law_r2 [0; 1] None) two_particles = Ok e)
   ∧ (∃ e G, get_energy_gradient false (make law_r2 [0; 1] None)
               two_particles (replicate 6 7%float) = Ok (e, G)))
  ∧ (get_energy (make law_r2 [0; 1; 0] None) two_particles
     = Fault (VectorOutOfRange 3)
     ∧ get_energy_gradient false (make law_r2 [0; 1; 0] None) two_particles
         (replicate 6 7%float)
       = Fault (VectorOutOfRange 3)).
Proof.
  assert (Hx : addressable two_particles) by buffer_addressable.
  assert (H2 : Forall (λ a, 0 ≤ a < Z.of_nat 2) [0; 1]) by particles_in_range.
  assert (H3 : Forall (λ a, 0 ≤ a < Z.of_nat 2) [0; 1; 0]) by particles_in_range.
  split.
  - exact (proj1 (C10_accesses_in_bounds false 2 (make law_r2 [0; 1] None)
                    two_particles (replicate 6 7%float) H2 eq_refl Hx eq_refl)
             eq_refl).
  - exact (proj2 (C10_accesses_in_bounds false 2 (make law_r2 [0; 1; 0] None)
                    two_particles (replicate 6 7%float) H3 eq_refl Hx eq_refl)
             eq_refl).
Defined.

Lemma C6_on_three_particles :
  get_energy (make law_r2 ([] ++ 1 :: 0 :: []) None) two_particles
  = get_energy (make law_r2 ([] ++ 0 :: 1 :: []) None) two_particles
  ∧ ∃ e G G',
      get_energy_gradient false
        (make law_r2_exact ([0; 1] ++ 0 :: 2 :: []) None) three_particles
        (replicate 9 5) = Ok (e, G)
      ∧ get_energy_gradient false
          (make law_r2_exact ([0; 1] ++ 2 :: 0 :: []) None) three_particles
          (replicate 9 5) = Ok (e, G')
      ∧ G' = G.
Proof.
  assert (Hv2 : valid_input 2 ([] ++ 0 :: 1 :: []) two_particles) by well_formed.
  assert (Hv3 : valid_input 3 ([0; 1] ++ 0 :: 2 :: []) three_particles)
    by well_formed.
  split.
  - exact (proj1 (C6_swap_leaves_result false 2 law_r2 None [] [] 0 1
                    two_particles (replicate 6 7%float) eq_refl Hv2 eq_refl)).
  - destruct (C6_swap_leaves_result false 3 law_r2_exact None [0; 1] [] 0 2
                three_particles (replicate 9 5) eq_refl Hv3 eq_refl)
      as (_ & (e & G & G' & Ha & Hb & HG) & _).
    exists e, G, G'. split; [exact Ha|]. split; [exact Hb|].
    exact (HG integers_exact).
Defined.

(** * Further properties of the two routines *)

(** ** Loops and accesses, continued *)

Lemma Array_set_outside {T : Type} (x : list T) (i : Z) (v : T) :
  Z.of_nat (length x) ≤ i → Array_set x i v = Fault (ArrayOutOfRange i).
Proof.
  intros Hi. unfold Array_set.
  rewrite (proj2 (Z.ltb_ge _ _)) by lia.
  rewrite andb_false_r. reflexivity.
Qed.

Lemma Array_set_Ok_inv {T : Type} (x x' : list T) (i : Z) (v : T) :
  Array_set x i v = Ok x' →
  0 ≤ i < Z.of_nat (length x) ∧ x' = <[Z.to_nat i := v]> x.
Proof.
  unfold Array_set. intros Hset.
  destruct (Z.leb_spec 0 i); destruct (Z.ltb_spec i (Z.of_nat (length x)));
    simpl in Hset; try discriminate Hset.
  split; [lia | congruence].
Qed.

(** An invariant of a loop need only be kept by the iterations that run. *)
Lemma for_loop_invariant_lt {St : Type} (P : St → Prop)
    (body : nat → St → result St) (n step : nat) :
  (∀ i s s', (i < n)%nat → P s → body i s = Ok s' → P s') →
  ∀ fuel i s s', P s → for_loop fuel i n step body s = Ok s' → P s'.
Proof.
  intros Hbody. induction fuel as [|fuel IH]; intros i s s' Hs Hloop.
  - simpl in Hloop. congruence.
  - simpl in Hloop. destruct (Nat.ltb_spec i n); [|congruence].
    destruct (body i s) as [s1|] eqn:Hb; [|discriminate Hloop].
    simpl in Hloop. eapply IH; [|exact Hloop]. eapply Hbody; eassumption.
Qed.

(** The zeroing loop on a buffer shorter than [n] runs off its end. *)
Lemma zero_loop_short {T : Type} (z : T) (n : nat) :
  ∀ fuel (pre rest : list T),
    (length (pre ++ rest) < n)%nat → (n - length pre ≤ fuel)%nat →
    for_loop fuel (length pre) n 1
      (λ i g, Array_set g (Z.of_nat i) z) (pre ++ rest)
    = Fault (ArrayOutOfRange (Z.of_nat (length (pre ++ rest)))).
Proof.
  induction fuel as [|fuel IH]; intros pre rest Hshort Hfuel.
  - rewrite length_app in Hshort. lia.
  - rewrite length_app in Hshort.
    rewrite for_loop_enter by lia.
    destruct rest as [|v r].
    + rewrite app_nil_r. rewrite Array_set_outside by lia. reflexivity.
    + rewrite Array_set_inside by (rewrite length_app; simpl; lia).
      rewrite bind_Ok.
      replace (<[length pre := z]> (pre ++ v :: r)) with ((pre ++ [z]) ++ r).
      2:{ rewrite <- (Nat.add_0_r (length pre)), insert_app_r.
          simpl. rewrite <- app_assoc. reflexivity. }
      replace (length (pre ++ v :: r)) with (length ((pre ++ [z]) ++ r))
        by (rewrite !length_app; simpl; lia).
      replace (length pre + 1)%nat with (length (pre ++ [z]))
        by (rewrite length_app; simpl; lia).
      apply IH; rewrite !length_app in *; simpl in *; lia.
Qed.

(** The debug-build loop of assertions stops at the first entry that is not
    below the bound. *)
Lemma assert_loop_fails (ilist : list Z) (bound : Z) :
  ∀ ok fuel pre a rest,
    ilist = pre ++ ok ++ a :: rest → (length ok < fuel)%nat →
    Forall (λ c, c < bound) ok → bound ≤ a →
    for_loop fuel (length pre) (length ilist) 1
      (λ i (_ : unit), c ← vector_at ilist i; assert_ false (c <? bound)) tt
    = Fault AssertionFailed.
Proof.
  induction ok as [|c ok IH]; intros fuel pre a rest Hil Hfuel Hok Ha.
  - destruct fuel as [|fuel]; [simpl in Hfuel; lia|].
    rewrite for_loop_enter by (subst ilist; rewrite length_app; simpl; lia).
    assert (Hl : ilist !! length pre = Some a)
      by (subst ilist; apply list_lookup_middle; reflexivity).
    unfold vector_at. rewrite Hl. simpl.
    rewrite (proj2 (Z.ltb_ge _ _)) by assumption. reflexivity.
  - destruct fuel as [|fuel]; [simpl in Hfuel; lia|].
    apply Forall_cons in Hok as [Hc Hok].
    rewrite for_loop_enter by (subst ilist; rewrite length_app; simpl; lia).
    assert (Hl : ilist !! length pre = Some c)
      by (subst ilist; apply list_lookup_middle; reflexivity).
    unfold vector_at. rewrite Hl. simpl.
    rewrite (proj2 (Z.ltb_lt _ _)) by assumption. simpl.
    specialize (IH fuel (pre ++ [c]) a rest).
    rewrite length_app in IH. simpl in IH.
    apply IH; [subst ilist; rewrite <- app_assoc; reflexivity | | assumption..].
    simpl in Hfuel. lia.
Qed.

Lemma asserts_fail (ok : list Z) (a : Z) (rest : list Z) (bound : Z) :
  Forall (λ c, c < bound) ok → bound ≤ a →
  for_ (length (ok ++ a :: rest)) 1
    (λ i (_ : unit), c ← vector_at (ok ++ a :: rest) i;
                     assert_ false (c <? bound)) tt
  = Fault AssertionFailed.
Proof.
  intros Hok Ha. unfold for_.
  apply (assert_loop_fails (ok ++ a :: rest) bound ok _ [] a rest);
    [reflexivity | rewrite length_app; simpl; lia | assumption..].
Qed.

(** ** Buffers of the wrong length, indices out of range *)

Section Edges.

Context {D : Type} `{DoubleOps D}.
Implicit Types (x g grad : list D) (a b : Z) (p : SimplePairwiseInteractionList D).

(** A well-formed prefix of the list is walked without fault. *)
Lemma walk_energy_prefix p x :
  addressable x →
  ∀ pre, Nat.even (length pre) = true → Forall (inside x) pre →
  ∀ rest i (e : D),
    walk (energy_tail p x) i (pre ++ rest) e
    = walk (energy_tail p x) (i + length pre) rest
        (fold_left (λ e ab, (e + pair_energy (_interaction p) x ab)%D)
           (pairs pre) e).
Proof.
  intros Hx pre. induction pre as [|a|a b r IH] using pair_induction;
    intros Hev Hin rest i e.
  - simpl. rewrite Nat.add_0_r. reflexivity.
  - discriminate Hev.
  - apply Forall_cons in Hin as [Ha Hin]. apply Forall_cons in Hin as [Hb Hin].
    cbn [app walk pairs fold_left].
    rewrite (index3_inside x a), bind_Ok by assumption.
    rewrite (index3_inside x b), bind_Ok by assumption.
    rewrite energy_tail_inside, bind_Ok by assumption.
    rewrite IH by assumption. f_equal. simpl. lia.
Qed.

Lemma walk_gradient_prefix p x :
  addressable x →
  ∀ pre, Nat.even (length pre) = true → Forall (inside x) pre →
  ∀ rest i (s : D * list D), length s.2 = length x →
    walk (gradient_tail p x) i (pre ++ rest) s
    = walk (gradient_tail p x) (i + length pre) rest
        (fold_left (gradient_step (_interaction p) x) (pairs pre) s).
Proof.
  intros Hx pre. induction pre as [|a|a b r IH] using pair_induction;
    intros Hev Hin rest i s Hs.
  - simpl. rewrite Nat.add_0_r. reflexivity.
  - discriminate Hev.
  - apply Forall_cons in Hin as [Ha Hin]. apply Forall_cons in Hin as [Hb Hin].
    cbn [app walk pairs fold_left].
    rewrite (index3_inside x a), bind_Ok by assumption.
    rewrite (index3_inside x b), bind_Ok by assumption.
    rewrite gradient_tail_inside, bind_Ok by assumption.
    rewrite IH by (rewrite ?length_gradient_step; assumption).
    f_equal. simpl. lia.
Qed.

(** A pair whose first entry cannot be read stops both loop bodies at the
    read of [x[i1]]. *)
Lemma tails_unreadable p x (i1 i2 : Z) (e : D) (s : D * list D) :
  0 ≤ i1 < Machine.size_t_modulus → Z.of_nat (length x) ≤ i1 →
  energy_tail p x (i1, i2) e = Fault (ArrayOutOfRange i1)
  ∧ gradient_tail p x (i1, i2) s = Fault (ArrayOutOfRange i1).
Proof.
  intros Hr Hout. unfold energy_tail, gradient_tail, separation, dr_at.
  assert (E : Machine.size_add i1 0 = i1).
  { unfold Machine.size_add. rewrite Z.add_0_r. apply Z.mod_small. exact Hr. }
  rewrite E, (Array_get_outside x i1 Hout). split; reflexivity.
Qed.

Lemma fold_gradient_length (law : pairwise_interaction D) x
    (prs : list (Z * Z)) (s : D * list D) :
  length (fold_left (gradient_step law x) prs s).2 = length s.2.
Proof.
  revert s. induction prs as [|ab prs IH]; intros s; [reflexivity|].
  cbn [fold_left]. rewrite IH. apply length_gradient_step.
Qed.

(** The gradient buffer [get_energy_gradient] returns has the length of the
    one it was given, which is at least the length of [x]; the entries past
    [x.size()] are neither zeroed nor written. *)
Theorem returned_gradient_shape (ndebug : bool) p x grad (e : D) G :
  get_energy_gradient ndebug p x grad = Ok (e, G) →
  (length x ≤ length grad)%nat
  ∧ length G = length grad
  ∧ drop (length x) G = drop (length x) grad.
Proof.
  unfold get_energy_gradient. intros Hrun.
  destruct (assert_ ndebug _) as [[]|]; [|discriminate Hrun].
  rewrite bind_Ok in Hrun.
  destruct (for_ (length x) 1 _ grad) as [g0|] eqn:Hz; [|discriminate Hrun].
  rewrite bind_Ok in Hrun.
  assert (Hw : walk (gradient_tail p x) 0 (_ilist p) (d_zero, g0) = Ok (e, G)).
  { rewrite <- main_loop_walk.
    destruct (if ndebug then _ else _) as [[]|]; [exact Hrun | discriminate Hrun]. }
  clear Hrun.
  assert (Hle : (length x ≤ length grad)%nat).
  { destruct (Nat.le_gt_cases (length x) (length grad)) as [Hle|Hgt]; [exact Hle|].
    unfold for_ in Hz.
    rewrite (zero_loop_short d_zero (length x) (length x) [] grad) in Hz;
      [discriminate Hz | simpl; lia | simpl; lia]. }
  split; [exact Hle|].
  set (P := λ g : list D,
         length g = length grad ∧ drop (length x) g = drop (length x) grad).
  assert (H0 : P g0).
  { unfold for_ in Hz.
    apply (for_loop_invariant_lt P) in Hz; [exact Hz | | split; reflexivity].
    intros i g g' Hi [Hl Hd] Hset.
    apply Array_set_Ok_inv in Hset as [_ ->]. split.
    - rewrite length_insert. exact Hl.
    - rewrite drop_insert_lt by lia. exact Hd. }
  apply (walk_invariant (λ s : D * list D, P s.2)) in Hw; [exact Hw | | exact H0].
  intros [i1 i2] s s' Hs Hstep. unfold gradient_tail in Hstep.
  destruct (separation x i1 i2) as [dr|] eqn:Hsep; [|discriminate Hstep].
  rewrite bind_Ok in Hstep. cbv zeta in Hstep.
  pose proof (separation_Ok_inv x i1 i2 dr Hsep) as Hin.
  assert (Hscatter : ∀ op gij i g g',
            (∀ k, (k < 3)%nat →
               0 ≤ Machine.size_add i (Z.of_nat k) < Z.of_nat (length x)) →
            P g → scatter op gij dr i g = Ok g' → P g').
  { intros op gij i g g' Hi Hg Hsc. unfold scatter, for_ in Hsc.
    apply (for_loop_invariant_lt P) in Hsc; [exact Hsc | | exact Hg].
    intros k g1 g2 Hk [Hl Hd] Hb. specialize (Hi k Hk).
    destruct (Array_get g1 _); [|discriminate Hb]. rewrite bind_Ok in Hb.
    apply Array_set_Ok_inv in Hb as [_ ->]. split.
    - rewrite length_insert. exact Hl.
    - rewrite drop_insert_lt by lia. exact Hd. }
  destruct (scatter d_sub _ dr i1 s.2) as [g1|] eqn:Hg1; [|discriminate Hstep].
  rewrite bind_Ok in Hstep.
  destruct (scatter d_add _ dr i2 g1) as [g2|] eqn:Hg2; [|discriminate Hstep].
  rewrite bind_Ok in Hstep.
  assert (s' = ((s.1 + (energy_gradient (_interaction p) (norm2 dr)).1)%D, g2))
    as -> by (unfold mret, result_ret in Hstep; congruence).
  cbn [snd].
  apply (Hscatter _ _ _ _ _ (λ k Hk, proj2 (Hin k Hk)) (Hscatter _ _ _ _ _
           (λ k Hk, proj1 (Hin k Hk)) Hs Hg1) Hg2).
Qed.

(** A gradient buffer of the wrong length: the debug build stops at the
    assertion on the sizes; the release build runs off the end of a buffer
    that is too short while zeroing it. *)
Theorem length_mismatch_faults p x grad :
  (length grad ≠ length x →
     get_energy_gradient false p x grad = Fault AssertionFailed)
  ∧ ((length grad < length x)%nat →
       get_energy_gradient true p x grad
       = Fault (ArrayOutOfRange (Z.of_nat (length grad)))).
Proof.
  split; intros Hlen; unfold get_energy_gradient.
  - rewrite (proj2 (Nat.eqb_neq _ _)) by congruence. reflexivity.
  - change (assert_ true _) with (Ok tt). rewrite bind_Ok. unfold for_.
    rewrite (zero_loop_short d_zero (length x) (length x) [] grad)
      by (simpl; lia).
    reflexivity.
Qed.

(** The assertions only ever stop an evaluation: what the debug build
    returns, the release build returns too. *)
Theorem debug_result_is_release_result p x grad (r : D * list D) :
  get_energy_gradient false p x grad = Ok r →
  get_energy_gradient true p x grad = Ok r.
Proof.
  unfold get_energy_gradient. intros Hrun.
  destruct (assert_ false _) as [[]|]; [|discriminate Hrun].
  change (assert_ true (Nat.eqb (length x) (length grad))) with (Ok tt).
  rewrite bind_Ok in *.
  destruct (for_ (length x) 1 _ grad) as [g0|]; [|discriminate Hrun].
  rewrite bind_Ok in *.
  destruct (for_ (length (_ilist p)) 1 _ tt) as [[]|]; [|discriminate Hrun].
  exact Hrun.
Qed.

(** An index at or beyond the particle count, after a well-formed prefix of
    the list: the release build reads [x[3*a]] outside the buffer, in both
    routines; the debug build stops at the assertion on the indices. *)
Theorem index_too_large (law : pairwise_interaction D)
    (dist : option (distance_policy D)) (pre post : list Z) a b x grad :
  addressable x →
  length grad = length x →
  Nat.even (length pre) = true →
  Forall (inside x) pre →
  Z.of_nat (length x) ≤ 3 * a →
  3 * a ≤ Machine.LONG_MAX →
  Machine.in_long_range (3 * b) = true →
  get_energy (make law (pre ++ a :: b :: post) dist) x
  = Fault (ArrayOutOfRange (3 * a))
  ∧ get_energy_gradient true (make law (pre ++ a :: b :: post) dist) x grad
    = Fault (ArrayOutOfRange (3 * a))
  ∧ get_energy_gradient false (make law (pre ++ a :: b :: post) dist) x grad
    = Fault AssertionFailed.
Proof.
  intros Hx Hg Hev Hpre Hout Hmax Hb.
  set (p := make law (pre ++ a :: b :: post) dist).
  assert (Ha3 : index3 a = Ok (3 * a)) by (apply index3_small; lia).
  assert (Hb3 : ∃ i2, index3 b = Ok i2)
    by (unfold index3; rewrite Hb; eauto).
  destruct Hb3 as [i2 Hb3].
  assert (Hr : 0 ≤ 3 * a < Machine.size_t_modulus)
    by (unfold Machine.size_t_modulus, Machine.LONG_MAX in *; lia).
  split; [|split].
  - rewrite get_energy_walk. cbn [_ilist p make].
    rewrite walk_energy_prefix by assumption. cbn [walk].
    rewrite Ha3, bind_Ok, Hb3, bind_Ok.
    rewrite (proj1 (tails_unreadable p x (3 * a) i2 _ (d_zero, []) Hr Hout)).
    reflexivity.
  - rewrite get_energy_gradient_prologue by (assumption || left; reflexivity).
    cbn [_ilist p make].
    rewrite walk_gradient_prefix
      by (assumption || (simpl; apply length_replicate)).
    cbn [walk]. rewrite Ha3, bind_Ok, Hb3, bind_Ok.
    rewrite (proj2 (tails_unreadable p x (3 * a) i2 d_zero _ Hr Hout)).
    reflexivity.
  - unfold get_energy_gradient. rewrite Hg, Nat.eqb_refl.
    change (assert_ false true) with (Ok tt).
    rewrite bind_Ok, zero_fill, bind_Ok by assumption.
    cbn [_ilist p make]. rewrite asserts_fail; [reflexivity | | ].
    + apply inside_bounded; assumption.
    + unfold addressable in Hx.
      assert (Hq : Z.of_nat (length x) / 3 ≤ a)
        by (apply Z.div_le_upper_bound; lia).
      assert (0 ≤ Z.of_nat (length x) / 3) by (apply Z.div_pos; lia).
      rewrite to_long_small; lia.
Qed.



End Edges.

(** ** What the results depend on *)

Lemma fold_left_ext_Forall {A B : Type} (f f' : A → B → A) (l : list B) :
  Forall (λ y, ∀ s, f s y = f' s y) l →
  ∀ s, fold_left f l s = fold_left f' l s.
Proof.
  induction l as [|y l IH]; intros Hall s; [reflexivity|].
  apply Forall_cons in Hall as [Hy Hall]. cbn [fold_left].
  rewrite Hy. apply IH. exact Hall.
Qed.

Section Dependence.

Context {D : Type} `{DoubleOps D}.
Implicit Types (x g grad : list D) (a b q : Z) (p : SimplePairwiseInteractionList D).

Lemma pairs_Forall (P : Z → Prop) (l : list Z) :
  Forall P l → Forall (λ ab, P ab.1 ∧ P ab.2) (pairs l).
Proof.
  induction l as [|a|a b r IH] using pair_induction; intros Hall;
    cbn [pairs]; [constructor.. |].
  apply Forall_cons in Hall as [Ha Hall]. apply Forall_cons in Hall as [Hb Hall].
  apply Forall_cons. split; [split; assumption | apply IH; assumption].
Qed.

Lemma fold_slot_step_unlisted (law : pairwise_interaction D) x q (k : nat)
    (prs : list (Z * Z)) (v : D) :
  Forall (λ ab, ab.1 ≠ q ∧ ab.2 ≠ q) prs →
  fold_left (slot_step law x q k) prs v = v.
Proof.
  induction prs as [|ab prs IH]; intros Hall; [reflexivity|].
  apply Forall_cons in Hall as [[H1 H2] Hall]. cbn [fold_left].
  unfold slot_step at 2. rewrite !decide_False by assumption.
  apply IH. exact Hall.
Qed.

(** On well-formed input the results are a function of the separation
    vectors of the listed pairs. *)
Lemma results_from_separations (ndebug : bool) (N : nat) p x x' grad grad' :
  valid_input N (_ilist p) x → valid_input N (_ilist p) x' →
  length grad = length x → length grad' = length x' →
  Forall (λ ab, pair_dr x ab.1 ab.2 = pair_dr x' ab.1 ab.2) (pairs (_ilist p)) →
  get_energy p x = get_energy p x'
  ∧ get_energy_gradient ndebug p x grad = get_energy_gradient ndebug p x' grad'.
Proof.
  intros Hv Hv' Hg Hg' Hdr. split.
  - rewrite (get_energy_valid N p x Hv), (get_energy_valid N p x' Hv').
    do 2 f_equal. apply map_ext_Forall.
    eapply Forall_impl; [exact Hdr|]. intros ab Hab.
    unfold pair_energy, pair_r2. rewrite Hab. reflexivity.
  - rewrite (get_energy_gradient_valid ndebug N p x grad Hv Hg).
    rewrite (get_energy_gradient_valid ndebug N p x' grad' Hv' Hg').
    rewrite (coords_length _ _ _ Hv), (coords_length _ _ _ Hv'). f_equal.
    apply fold_left_ext_Forall.
    eapply Forall_impl; [exact Hdr|]. intros ab Hab s.
    unfold gradient_step, pair_scatter, pair_term, pair_gij, pair_r2.
    rewrite Hab. reflexivity.
Qed.

(** Both routines read only the coordinates of the particles named in the
    list: two buffers that agree on those particles give the same energy and
    the same gradient. *)
Theorem only_listed_particles_are_read (ndebug : bool) (N : nat) p x x'
    grad grad' :
  valid_input N (_ilist p) x →
  valid_input N (_ilist p) x' →
  length grad = length x →
  length grad' = length x' →
  (∀ a (k : nat), a ∈ _ilist p → (k < 3)%nat → x !! slot a k = x' !! slot a k) →
  get_energy p x = get_energy p x'
  ∧ get_energy_gradient ndebug p x grad = get_energy_gradient ndebug p x' grad'.
Proof.
  intros Hv Hv' Hg Hg' Hagree.
  apply (results_from_separations ndebug N); try assumption.
  assert (Hall : Forall (λ a, ∀ k : nat, (k < 3)%nat →
                                 x !! slot a k = x' !! slot a k) (_ilist p)).
  { apply Forall_forall. intros a Ha k Hk. apply Hagree; assumption. }
  eapply Forall_impl; [exact (pairs_Forall _ _ Hall)|].
  intros [a b] [Ha Hb]. cbn [fst snd] in *. unfold pair_dr, pos.
  rewrite !Ha, !Hb by lia. reflexivity.
Qed.

(** A particle that no pair names gets a zero gradient. *)
Theorem unlisted_particle_has_zero_gradient (ndebug : bool) (N : nat) p x grad
    q (k : nat) :
  valid_input N (_ilist p) x →
  length grad = length x →
  0 ≤ q < Z.of_nat N →
  q ∉ _ilist p →
  (k < 3)%nat →
  ∃ (e : D) G,
    get_energy_gradient ndebug p x grad = Ok (e, G)
    ∧ G !! slot q k = Some d_zero.
Proof.
  intros Hv Hg Hq Hnot Hk.
  pose proof (get_energy_gradient_valid ndebug N p x grad Hv Hg) as Hrun.
  destruct (fold_left _ _ _) as [e G] eqn:Hfold in Hrun.
  exists e, G. split; [exact Hrun|].
  replace G with (e, G).2 by reflexivity. rewrite <- Hfold.
  rewrite lookup_fold_gradient; [ | lia | assumption | ].
  2:{ eapply Forall_impl; [exact (ilist_range _ _ _ Hv)|]. simpl. lia. }
  cbn [snd]. rewrite lookup_replicate_2
    by (rewrite (coords_length _ _ _ Hv); unfold slot; lia).
  cbn [fmap option_fmap option_map]. f_equal.
  apply fold_slot_step_unlisted.
  apply (pairs_Forall (λ a, a ≠ q)).
  apply Forall_forall. intros a Ha ->. contradiction.
Qed.

End Dependence.

(** ** Exact arithmetic, continued: lists composed, reordered, translated *)

Lemma fold_left_permutation {A B : Type} (f : A → B → A) :
  (∀ s y z, f (f s y) z = f (f s z) y) →
  ∀ l l', l ≡ₚ l' → ∀ s, fold_left f l s = fold_left f l' s.
Proof.
  intros Hcomm l l' Hperm.
  induction Hperm as [|y l l' _ IH|y z l|l l' l'' _ IH1 _ IH2]; intros s.
  - reflexivity.
  - cbn [fold_left]. apply IH.
  - cbn [fold_left]. rewrite Hcomm. reflexivity.
  - rewrite IH1. apply IH2.
Qed.

Section Composition.

Context {D : Type} `{ExactArithmetic D}.
Implicit Types (x g grad : list D) (a b : Z) (p : SimplePairwiseInteractionList D).

Add Ring composition_ring : exact_ring.

Lemma fold_add_from (m : list D) (v : D) :
  fold_left d_add m v = (v + fold_left d_add m d_zero)%D.
Proof.
  revert v. induction m as [|y m IH]; intros v; cbn [fold_left].
  - ring.
  - rewrite IH, (IH (d_zero + y)%D). ring.
Qed.

Lemma slot_step_from (law : pairwise_interaction D) x (q : Z) (k : nat)
    (v : D) (ab : Z * Z) :
  slot_step law x q k v ab = (v + slot_step law x q k d_zero ab)%D.
Proof. unfold slot_step. repeat case_decide; ring. Qed.

Lemma fold_slot_step_from (law : pairwise_interaction D) x (q : Z) (k : nat)
    (prs : list (Z * Z)) (v : D) :
  fold_left (slot_step law x q k) prs v
  = (v + fold_left (slot_step law x q k) prs d_zero)%D.
Proof.
  revert v. induction prs as [|ab prs IH]; intros v; cbn [fold_left].
  - ring.
  - rewrite IH, (IH (slot_step law x q k d_zero ab)).
    rewrite (slot_step_from law x q k v ab). ring.
Qed.

Lemma slot_step_commute (law : pairwise_interaction D) x (q : Z) (k : nat)
    (v : D) (ab cd : Z * Z) :
  slot_step law x q k (slot_step law x q k v ab) cd
  = slot_step law x q k (slot_step law x q k v cd) ab.
Proof. unfold slot_step. repeat case_decide; ring. Qed.

Lemma slot_step_self (law : pairwise_interaction D) x (q : Z) (k : nat)
    (v : D) a :
  slot_step law x q k v (a, a) = v.
Proof. unfold slot_step. cbn [fst snd]. repeat case_decide; ring. Qed.

Lemma pair_r2_self x a : pair_r2 x a a = d_zero.
Proof. unfold pair_r2, norm2, pair_dr. cbn [vec3_at fst snd]. ring. Qed.

Lemma pair_energy_self (law : pairwise_interaction D) x a :
  pair_energy law x (a, a) = energy law d_zero.
Proof. unfold pair_energy. cbn [fst snd]. rewrite pair_r2_self. reflexivity. Qed.

(** Two gradient buffers of [3N] entries are equal when they agree on every
    slot of every particle. *)
Lemma gradient_eq_by_slots (N : nat) (G G' : list D) :
  (∀ (q : Z) (k : nat), 0 ≤ q → (k < 3)%nat → G !! slot q k = G' !! slot q k) →
  G = G'.
Proof.
  intros Hslots. apply list_eq. intros j. rewrite (index_as_slot j).
  apply Hslots; [lia | apply Nat.mod_upper_bound; lia].
Qed.

Lemma valid_input_app (N : nat) (l1 l2 : list Z) x :
  valid_input N l1 x → valid_input N l2 x → valid_input N (l1 ++ l2) x.
Proof.
  intros [E1 R1 L1 A1] [E2 R2 _ _]. constructor; [ | | assumption..].
  - rewrite length_app, Nat.even_add, E1, E2. reflexivity.
  - apply Forall_app. split; assumption.
Qed.

(** Two lists evaluated one after the other: the energy of the concatenation
    is the sum of the two energies and its gradient is the entrywise sum of
    the two gradients. *)
Theorem concatenation_adds_up (ndebug : bool) (N : nat)
    (law : pairwise_interaction D) (dist : option (distance_policy D))
    (l1 l2 : list Z) x grad :
  valid_input N l1 x →
  valid_input N l2 x →
  length grad = length x →
  ∃ (E1 E2 e1 e2 : D) (G1 G2 : list D),
    get_energy (make law l1 dist) x = Ok E1
    ∧ get_energy (make law l2 dist) x = Ok E2
    ∧ get_energy (make law (l1 ++ l2) dist) x = Ok (E1 + E2)%D
    ∧ get_energy_gradient ndebug (make law l1 dist) x grad = Ok (e1, G1)
    ∧ get_energy_gradient ndebug (make law l2 dist) x grad = Ok (e2, G2)
    ∧ get_energy_gradient ndebug (make law (l1 ++ l2) dist) x grad
      = Ok ((e1 + e2)%D, zip_with d_add G1 G2).
Proof.
  intros Hv1 Hv2 Hg.
  pose proof (valid_input_app N l1 l2 x Hv1 Hv2) as Hv.
  pose proof (get_energy_gradient_valid ndebug N (make law l1 dist) x grad
                Hv1 Hg) as R1.
  pose proof (get_energy_gradient_valid ndebug N (make law l2 dist) x grad
                Hv2 Hg) as R2.
  pose proof (get_energy_gradient_valid ndebug N (make law (l1 ++ l2) dist)
                x grad Hv Hg) as R.
  cbn [_ilist _interaction make] in R1, R2, R.
  set (s0 := (d_zero, replicate (length x) d_zero)) in *.
  set (r1 := fold_left (gradient_step law x) (pairs l1) s0) in *.
  set (r2 := fold_left (gradient_step law x) (pairs l2) s0) in *.
  eexists _, _, r1.1, r2.1, r1.2, r2.2.
  split; [exact (get_energy_valid N (make law l1 dist) x Hv1)|].
  split; [exact (get_energy_valid N (make law l2 dist) x Hv2)|].
  split.
  { rewrite (get_energy_valid N (make law (l1 ++ l2) dist) x Hv).
    cbn [_ilist _interaction make]. f_equal.
    rewrite pairs_app by apply Hv1. rewrite map_app.
    unfold sum_in_order. rewrite fold_left_app. apply fold_add_from. }
  split; [rewrite <- surjective_pairing; exact R1|].
  split; [rewrite <- surjective_pairing; exact R2|].
  rewrite R. f_equal.
  rewrite pairs_app by apply Hv1. rewrite fold_left_app. fold r1.
  assert (Hnn : ∀ l, valid_input N l x → Forall (λ c, 0 ≤ c) l).
  { intros l Hl. eapply Forall_impl; [exact (ilist_range _ _ _ Hl)|].
    simpl. lia. }
  apply injective_projections.
  - rewrite fold_gradient_energy. cbn [fst].
    rewrite fold_add_from. f_equal. unfold r2. rewrite fold_gradient_energy.
    reflexivity.
  - cbn [snd]. apply (gradient_eq_by_slots N). intros q k Hq Hk.
    rewrite lookup_zip_with.
    rewrite lookup_fold_gradient by (assumption || apply Hnn; assumption).
    unfold r1, r2.
    rewrite !lookup_fold_gradient by (assumption || apply Hnn; assumption).
    cbn [snd s0].
    destruct (replicate (length x) d_zero !! slot q k) as [v|] eqn:Hz;
      [|reflexivity].
    apply lookup_replicate in Hz as [-> _].
    cbn [fmap option_fmap option_map mbind option_bind]. f_equal.
    apply fold_slot_step_from.
Qed.

(** In exact arithmetic the order of the pairs in the list does not matter:
    two lists with the same pairs, in any order, give the same energy and
    the same gradient. *)
Theorem pair_order_is_irrelevant (ndebug : bool) (N : nat)
    (law : pairwise_interaction D) (dist : option (distance_policy D))
    (l1 l2 : list Z) x grad :
  valid_input N l1 x →
  valid_input N l2 x →
  pairs l1 ≡ₚ pairs l2 →
  length grad = length x →
  get_energy (make law l1 dist) x = get_energy (make law l2 dist) x
  ∧ get_energy_gradient ndebug (make law l1 dist) x grad
    = get_energy_gradient ndebug (make law l2 dist) x grad.
Proof.
  intros Hv1 Hv2 Hperm Hg.
  assert (Hadd : ∀ (s y z : D), (s + y + z)%D = (s + z + y)%D)
    by (intros; ring).
  assert (Hnn : ∀ l, valid_input N l x → Forall (λ c, 0 ≤ c) l).
  { intros l Hl. eapply Forall_impl; [exact (ilist_range _ _ _ Hl)|].
    simpl. lia. }
  split.
  - rewrite (get_energy_valid N (make law l1 dist) x Hv1).
    rewrite (get_energy_valid N (make law l2 dist) x Hv2).
    cbn [_ilist _interaction make]. f_equal. unfold sum_in_order.
    apply (fold_left_permutation d_add Hadd).
    apply Permutation_map. exact Hperm.
  - rewrite (get_energy_gradient_valid ndebug N (make law l1 dist) x grad Hv1 Hg).
    rewrite (get_energy_gradient_valid ndebug N (make law l2 dist) x grad Hv2 Hg).
    cbn [_ilist _interaction make]. f_equal. apply injective_projections.
    + rewrite !fold_gradient_energy.
      apply (fold_left_permutation d_add Hadd).
      apply Permutation_map. exact Hperm.
    + apply (gradient_eq_by_slots N). intros q k Hq Hk.
      rewrite !lookup_fold_gradient by (assumption || apply Hnn; assumption).
      destruct (_ !! slot q k) as [v|]; [|reflexivity].
      cbn [fmap option_fmap option_map]. f_equal.
      apply fold_left_permutation; [|exact Hperm].
      intros s y z. apply slot_step_commute.
Qed.

(** A pair (a, a) is not skipped: it adds the law's value at distance zero to
    the energy, and it leaves the gradient as it is. *)
Theorem self_pair_adds_energy_only (ndebug : bool) (N : nat)
    (law : pairwise_interaction D) (dist : option (distance_policy D))
    (pre post : list Z) a x grad :
  Nat.even (length pre) = true →
  valid_input N (pre ++ a :: a :: post) x →
  length grad = length x →
  ∃ (E e : D) (G : list D),
    get_energy (make law (pre ++ post) dist) x = Ok E
    ∧ get_energy (make law (pre ++ a :: a :: post) dist) x
      = Ok (E + energy law d_zero)%D
    ∧ get_energy_gradient ndebug (make law (pre ++ post) dist) x grad
      = Ok (e, G)
    ∧ get_energy_gradient ndebug (make law (pre ++ a :: a :: post) dist) x grad
      = Ok ((e + (energy_gradient law d_zero).1)%D, G).
Proof.
  intros Hpre Hv Hg.
  pose proof (ilist_range _ _ _ Hv) as Hr.
  apply Forall_app in Hr as [Hrpre Hr].
  apply Forall_cons in Hr as [Ha Hr]. apply Forall_cons in Hr as [_ Hrpost].
  assert (Hv0 : valid_input N (pre ++ post) x).
  { constructor; [ | | apply Hv | apply Hv].
    - pose proof (ilist_even _ _ _ Hv) as Hev.
      rewrite length_app, Nat.even_add, Hpre in Hev. cbn [length Nat.even] in Hev.
      rewrite length_app, Nat.even_add, Hpre. exact Hev.
    - apply Forall_app. split; assumption. }
  assert (Hnn : ∀ l, valid_input N l x → Forall (λ c, 0 ≤ c) l).
  { intros l Hl. eapply Forall_impl; [exact (ilist_range _ _ _ Hl)|].
    simpl. lia. }
  pose proof (get_energy_gradient_valid ndebug N (make law (pre ++ post) dist)
                x grad Hv0 Hg) as R0.
  pose proof (get_energy_gradient_valid ndebug N
                (make law (pre ++ a :: a :: post) dist) x grad Hv Hg) as R.
  cbn [_ilist _interaction make] in R0, R.
  set (s0 := (d_zero, replicate (length x) d_zero)) in *.
  set (r0 := fold_left (gradient_step law x) (pairs (pre ++ post)) s0) in *.
  assert (P0 : pairs (pre ++ post) = pairs pre ++ pairs post)
    by (apply pairs_app; exact Hpre).
  assert (P1 : pairs (pre ++ a :: a :: post) = pairs pre ++ (a, a) :: pairs post)
    by (rewrite pairs_app by exact Hpre; reflexivity).
  eexists _, r0.1, r0.2.
  split; [exact (get_energy_valid N (make law (pre ++ post) dist) x Hv0)|].
  split.
  { rewrite (get_energy_valid N (make law (pre ++ a :: a :: post) dist) x Hv).
    cbn [_ilist _interaction make]. f_equal. unfold sum_in_order.
    rewrite P0, P1, !map_app, !fold_left_app. cbn [map fold_left].
    rewrite pair_energy_self. rewrite fold_add_from.
    rewrite (fold_add_from _ (fold_left d_add _ d_zero)). ring. }
  split; [rewrite <- surjective_pairing; exact R0|].
  rewrite R. f_equal. apply injective_projections; cbn [fst snd].
  - unfold r0. rewrite !fold_gradient_energy.
    rewrite P0, P1, !map_app, !fold_left_app. cbn [map fold_left fst snd s0].
    rewrite pair_r2_self. rewrite fold_add_from.
    rewrite (fold_add_from _ (fold_left d_add _ d_zero)). ring.
  - apply (gradient_eq_by_slots N). intros q k Hq Hk. unfold r0.
    rewrite !lookup_fold_gradient by (assumption || apply Hnn; assumption).
    destruct (_ !! slot q k) as [v|]; [|reflexivity].
    cbn [fmap option_fmap option_map]. f_equal.
    rewrite P0, P1, !fold_left_app. cbn [fold_left].
    rewrite slot_step_self. reflexivity.
Qed.

Lemma slot_mod3 a (k : nat) : 0 ≤ a → (k < 3)%nat → (slot a k mod 3 = k)%nat.
Proof.
  intros Ha Hk. unfold slot.
  replace (Z.to_nat (3 * a)) with (Z.to_nat a * 3)%nat by lia.
  rewrite Nat.add_comm, Nat.Div0.mod_add. apply Nat.mod_small. exact Hk.
Qed.

Lemma pos_translate (t : vec3 D) x a (k : nat) :
  inside x a → (k < 3)%nat →
  pos (translate t x) a k = (pos x a k + vec3_at t k)%D.
Proof.
  intros [Ha Hlt] Hk. unfold pos, translate. rewrite list_lookup_imap.
  destruct (lookup_lt_is_Some_2 x (slot a k)) as [v Hv]; [unfold slot; lia|].
  rewrite Hv. cbn [fmap option_fmap option_map default].
  rewrite slot_mod3 by assumption. reflexivity.
Qed.

(** Moving every particle by the same vector changes neither the energy nor
    the gradient: the routines see the coordinates through differences only. *)
Theorem translation_invariance (ndebug : bool) (N : nat) p (t : vec3 D) x grad :
  valid_input N (_ilist p) x →
  length grad = length x →
  get_energy p (translate t x) = get_energy p x
  ∧ get_energy_gradient ndebug p (translate t x) grad
    = get_energy_gradient ndebug p x grad.
Proof.
  intros Hv Hg.
  assert (Hlen : length (translate t x) = length x)
    by (unfold translate; apply length_imap).
  assert (Hv' : valid_input N (_ilist p) (translate t x)).
  { destruct Hv as [E R L A]. constructor; [assumption.. | | ].
    - rewrite Hlen. exact L.
    - unfold addressable in *. rewrite Hlen. exact A. }
  apply (results_from_separations ndebug N); try assumption; [congruence|].
  pose proof (valid_input_inside N _ x Hv) as Hin.
  eapply Forall_impl; [exact (pairs_Forall _ _ Hin)|].
  intros [a b] [Ha Hb]. cbn [fst snd] in *. unfold pair_dr.
  rewrite !pos_translate by (assumption || lia).
  f_equal; [f_equal|]; ring.
Qed.

End Composition.

(** On doubles the order of the pairs does matter: the energy is accumulated
    in list order, and the same three pairs listed in two orders give two
    different sums. *)
Theorem summation_order_matters_on_doubles :
  ∃ (l1 l2 : list Z) (e1 e2 : float),
    valid_input 4 l1 four_particles
    ∧ valid_input 4 l2 four_particles
    ∧ pairs l1 ≡ₚ pairs l2
    ∧ get_energy (make law_r2 l1 None) four_particles = Ok e1
    ∧ get_energy (make law_r2 l2 None) four_particles = Ok e2
    ∧ PrimFloat.ltb e1 e2 = true.
Proof.
  exists [0; 1; 0; 2; 0; 3], [0; 2; 0; 3; 0; 1],
    9007199254740992%float, 9007199254740994%float.
  split; [well_formed|]. split; [well_formed|].
  split.
  { cbn [pairs]. exact (Permutation_cons_append [(0, 2); (0, 3)] (0, 1)). }
  split; [vm_compute; reflexivity|].
  split; [vm_compute; reflexivity|].
  vm_compute. reflexivity.
Qed.

(** ** A returned value certifies a well-formed list *)

Section Certified.

Context {D : Type} `{DoubleOps D}.
Implicit Types (x g grad : list D) (a b : Z) (p : SimplePairwiseInteractionList D).

(** An index whose slots can be read is a particle inside the buffer. *)
Lemma readable_index_inside x a (i1 : Z) :
  addressable x → index3 a = Ok i1 →
  0 ≤ Machine.size_add i1 0 < Z.of_nat (length x) →
  0 ≤ Machine.size_add i1 2 < Z.of_nat (length x) →
  inside x a.
Proof.
  intros Hx Hidx H0 H2. unfold addressable in Hx.
  unfold index3, Machine.in_long_range in Hidx.
  destruct (Z.leb_spec Machine.LONG_MIN (3 * a));
    destruct (Z.leb_spec (3 * a) Machine.LONG_MAX);
    simpl in Hidx; try discriminate Hidx.
  assert (i1 = Machine.to_size_t (3 * a)) as -> by congruence.
  unfold Machine.to_size_t, Machine.size_add, Machine.size_t_modulus,
    Machine.LONG_MIN, Machine.LONG_MAX in *.
  destruct (Z.lt_ge_cases a 0) as [Hneg|Hpos].
  - exfalso.
    assert (E : (3 * a) mod 2 ^ 64 = 3 * a + 2 ^ 64).
    { rewrite <- (Z.mod_add (3 * a) 1 (2 ^ 64)) by lia.
      rewrite Z.mod_small by lia. lia. }
    rewrite E in H0. rewrite Z.add_0_r, Z.mod_small in H0 by lia. lia.
  - rewrite (Z.mod_small (3 * a)) in H2 by lia.
    rewrite Z.mod_small in H2 by lia. unfold inside. lia.
Qed.

Lemma walk_Ok_well_formed {St : Type} (step : Z * Z → St → result St) x :
  addressable x →
  (∀ i1 i2 s s', step (i1, i2) s = Ok s' → ∃ dr, separation x i1 i2 = Ok dr) →
  ∀ l i (s s' : St),
    walk step i l s = Ok s' →
    Nat.even (length l) = true ∧ Forall (inside x) l.
Proof.
  intros Hx Hstep l. induction l as [|a|a b r IH] using pair_induction;
    intros i s s' Hw; cbn [walk] in Hw.
  - split; [reflexivity | constructor].
  - destruct (index3 a); discriminate Hw.
  - destruct (index3 a) as [i1|] eqn:Ha; [|discriminate Hw]. rewrite bind_Ok in Hw.
    destruct (index3 b) as [i2|] eqn:Hb; [|discriminate Hw]. rewrite bind_Ok in Hw.
    destruct (step (i1, i2) s) as [s1|] eqn:Hs; [|discriminate Hw].
    rewrite bind_Ok in Hw.
    destruct (Hstep _ _ _ _ Hs) as [dr Hsep].
    pose proof (separation_Ok_inv x i1 i2 dr Hsep) as Hin.
    destruct (Hin 0%nat) as [A0 B0]; [lia|].
    destruct (Hin 2%nat) as [A2 B2]; [lia|].
    destruct (IH _ _ _ Hw) as [Hev Hall].
    split; [exact Hev|].
    apply Forall_cons. split;
      [exact (readable_index_inside x a i1 Hx Ha A0 A2)|].
    apply Forall_cons. split;
      [exact (readable_index_inside x b i2 Hx Hb B0 B2) | exact Hall].
Qed.

(** Each routine returns a value exactly when the list has even length and
    every entry is a particle inside the coordinate buffer: on any other list
    the evaluation leaves a container or, in the debug build, fails an
    assertion. *)
Theorem returns_exactly_on_well_formed_lists (ndebug : bool) p x grad :
  addressable x →
  length grad = length x →
  ((∃ e : D, get_energy p x = Ok e)
   ↔ Nat.even (length (_ilist p)) = true ∧ Forall (inside x) (_ilist p))
  ∧ ((∃ r : D * list D, get_energy_gradient ndebug p x grad = Ok r)
     ↔ Nat.even (length (_ilist p)) = true ∧ Forall (inside x) (_ilist p)).
Proof.
  intros Hx Hg. split; split.
  - intros [e He]. rewrite get_energy_walk in He.
    apply (walk_Ok_well_formed (energy_tail p x) x Hx) in He; [exact He|].
    intros i1 i2 s s' Hs. unfold energy_tail in Hs.
    destruct (separation x i1 i2) as [dr|]; [eauto | discriminate Hs].
  - intros [Hev Hin]. eexists. rewrite get_energy_walk.
    apply walk_energy_inside; assumption.
  - intros [r Hr].
    assert (Hw : walk (gradient_tail p x) 0 (_ilist p)
                   (d_zero, replicate (length x) d_zero) = Ok r).
    { unfold get_energy_gradient in Hr.
      destruct (assert_ ndebug _) as [[]|]; [|discriminate Hr].
      rewrite bind_Ok, zero_fill, bind_Ok in Hr by assumption.
      rewrite <- main_loop_walk.
      destruct (if ndebug then _ else _) as [[]|]; [exact Hr | discriminate Hr]. }
    apply (walk_Ok_well_formed (gradient_tail p x) x Hx) in Hw; [exact Hw|].
    intros i1 i2 s s' Hs. unfold gradient_tail in Hs.
    destruct (separation x i1 i2) as [dr|]; [eauto | discriminate Hs].
  - intros [Hev Hin]. eexists.
    rewrite get_energy_gradient_prologue;
      [ | assumption | right; apply inside_bounded; assumption ].
    apply walk_gradient_inside; try assumption.
    simpl. apply length_replicate.
Qed.

End Certified.

(** ** The further properties on concrete inputs *)

Lemma returned_gradient_shape_example :
  (length two_particles ≤ length (replicate 6 7%float ++ [8; 9]%float))%nat
  ∧ length [2; 0; 0; -2; 0; 0; 8; 9]%float
    = length (replicate 6 7%float ++ [8; 9]%float)
  ∧ drop (length two_particles) [2; 0; 0; -2; 0; 0; 8; 9]%float
    = drop (length two_particles) (replicate 6 7%float ++ [8; 9]%float).
Proof.
  assert (Hrun : get_energy_gradient true (make law_r2 [0; 1] None)
                   two_particles (replicate 6 7%float ++ [8; 9]%float)
                 = Ok (1%float, [2; 0; 0; -2; 0; 0; 8; 9]%float))
    by (vm_compute; reflexivity).
  exact (returned_gradient_shape true (make law_r2 [0; 1] None) two_particles
           (replicate 6 7%float ++ [8; 9]%float) 1%float
           [2; 0; 0; -2; 0; 0; 8; 9]%float Hrun).
Defined.

Lemma length_mismatch_faults_example :
  get_energy_gradient false (make law_r2 [0; 1] None) two_particles
    (replicate 8 7%float) = Fault AssertionFailed
  ∧ get_energy_gradient true (make law_r2 [0; 1] None) two_particles
      (replicate 4 7%float) = Fault (ArrayOutOfRange 4).
Proof.
  split.
  - apply (proj1 (length_mismatch_faults (make law_r2 [0; 1] None)
                    two_particles (replicate 8 7%float))).
    simpl. lia.
  - apply (proj2 (length_mismatch_faults (make law_r2 [0; 1] None)
                    two_particles (replicate 4 7%float))).
    simpl. lia.
Defined.

Lemma debug_result_is_release_result_example :
  get_energy_gradient true (make law_r2 [0; 1] None) two_particles
    (replicate 6 7%float)
  = Ok (1%float, [2; 0; 0; -2; 0; 0]%float).
Proof.
  apply debug_result_is_release_result. vm_compute. reflexivity.
Defined.

Lemma index_too_large_example :
  get_energy (make law_r2_exact ([0; 1] ++ 3 :: 0 :: []) None) three_particles
  = Fault (ArrayOutOfRange (3 * 3))
  ∧ get_energy_gradient true (make law_r2_exact ([0; 1] ++ 3 :: 0 :: []) None)
      three_particles (replicate 9 5)
    = Fault (ArrayOutOfRange (3 * 3))
  ∧ get_energy_gradient false (make law_r2_exact ([0; 1] ++ 3 :: 0 :: []) None)
      three_particles (replicate 9 5)
    = Fault AssertionFailed.
Proof.
  assert (Hx : addressable three_particles) by buffer_addressable.
  assert (Hpre : Forall (inside three_particles) [0; 1]).
  { apply Forall_cons; split; [particle_inside|].
    apply Forall_cons; split; [particle_inside | constructor]. }
  assert (Hout : Z.of_nat (length three_particles) ≤ 3 * 3) by (simpl; lia).
  assert (Hmax : 3 * 3 ≤ Machine.LONG_MAX) by (unfold Machine.LONG_MAX; lia).
  exact (index_too_large law_r2_exact None [0; 1] [] 3 0 three_particles
           (replicate 9 5) Hx eq_refl eq_refl Hpre Hout Hmax eq_refl).
Defined.


Lemma only_listed_particles_are_read_example :
  get_energy (make law_r2_exact [0; 1] None) three_particles
  = get_energy (make law_r2_exact [0; 1] None) three_particles_moved
  ∧ get_energy_gradient false (make law_r2_exact [0; 1] None) three_particles
      (replicate 9 5)
    = get_energy_gradient false (make law_r2_exact [0; 1] None)
        three_particles_moved (replicate 9 6).
Proof.
  assert (Hv : valid_input 3 [0; 1] three_particles) by well_formed.
  assert (Hv' : valid_input 3 [0; 1] three_particles_moved) by well_formed.
  assert (Hagree : ∀ (a : Z) (k : nat), a ∈ [0; 1] → (k < 3)%nat →
            three_particles !! slot a k = three_particles_moved !! slot a k).
  { intros a k Ha Hk.
    apply elem_of_cons in Ha as [->|Ha];
      [|apply elem_of_cons in Ha as [->|Ha];
        [|apply elem_of_nil in Ha; contradiction]];
      destruct k as [|[|[|k]]]; try lia; reflexivity. }
  exact (only_listed_particles_are_read false 3 (make law_r2_exact [0; 1] None)
           three_particles three_particles_moved (replicate 9 5)
           (replicate 9 6) Hv Hv' eq_refl eq_refl Hagree).
Defined.

Lemma unlisted_particle_has_zero_gradient_example :
  ∃ e G,
    get_energy_gradient false (make law_r2_exact [0; 1] None) three_particles
      (replicate 9 5) = Ok (e, G)
    ∧ G !! slot 2 1 = Some 0.
Proof.
  assert (Hv : valid_input 3 [0; 1] three_particles) by well_formed.
  assert (Hq : 0 ≤ 2 < Z.of_nat 3) by (simpl; lia).
  assert (Hnot : 2 ∉ [0; 1]).
  { intros Hin. apply elem_of_cons in Hin as [E|Hin]; [lia|].
    apply elem_of_cons in Hin as [E|Hin]; [lia|].
    apply elem_of_nil in Hin. contradiction. }
  assert (Hk : (1 < 3)%nat) by lia.
  exact (unlisted_particle_has_zero_gradient false 3
           (make law_r2_exact [0; 1] None) three_particles (replicate 9 5)
           2 1%nat Hv eq_refl Hq Hnot Hk).
Defined.

Lemma returns_exactly_on_well_formed_lists_example :
  ((∃ e, get_energy (make law_r2 [0; 1; 0] None) two_particles = Ok e)
   ↔ Nat.even 3 = true ∧ Forall (inside two_particles) [0; 1; 0])
  ∧ ((∃ r, get_energy_gradient false (make law_r2 [0; 1; 0] None) two_particles
             (replicate 6 7%float) = Ok r)
     ↔ Nat.even 3 = true ∧ Forall (inside two_particles) [0; 1; 0]).
Proof.
  assert (Hx : addressable two_particles) by buffer_addressable.
  exact (returns_exactly_on_well_formed_lists false (make law_r2 [0; 1; 0] None)
           two_particles (replicate 6 7%float) Hx eq_refl).
Defined.

Lemma concatenation_adds_up_example :
  ∃ E1 E2 e1 e2 G1 G2,
    get_energy (make law_r2_exact [0; 1] None) three_particles = Ok E1
    ∧ get_energy (make law_r2_exact [0; 2] None) three_particles = Ok E2
    ∧ get_energy (make law_r2_exact ([0; 1] ++ [0; 2]) None) three_particles
      = Ok (E1 + E2)
    ∧ get_energy_gradient false (make law_r2_exact [0; 1] None)
        three_particles (replicate 9 5) = Ok (e1, G1)
    ∧ get_energy_gradient false (make law_r2_exact [0; 2] None)
        three_particles (replicate 9 5) = Ok (e2, G2)
    ∧ get_energy_gradient false (make law_r2_exact ([0; 1] ++ [0; 2]) None)
        three_particles (replicate 9 5)
      = Ok (e1 + e2, zip_with Z.add G1 G2).
Proof.
  assert (Hv1 : valid_input 3 [0; 1] three_particles) by well_formed.
  assert (Hv2 : valid_input 3 [0; 2] three_particles) by well_formed.
  exact (concatenation_adds_up false 3 law_r2_exact None [0; 1] [0; 2]
           three_particles (replicate 9 5) Hv1 Hv2 eq_refl).
Defined.

Lemma pair_order_is_irrelevant_example :
  get_energy (make law_r2_exact [0; 1; 0; 2] None) three_particles
  = get_energy (make law_r2_exact [0; 2; 0; 1] None) three_particles
  ∧ get_energy_gradient false (make law_r2_exact [0; 1; 0; 2] None)
      three_particles (replicate 9 5)
    = get_energy_gradient false (make law_r2_exact [0; 2; 0; 1] None)
        three_particles (replicate 9 5).
Proof.
  assert (Hv1 : valid_input 3 [0; 1; 0; 2] three_particles) by well_formed.
  assert (Hv2 : valid_input 3 [0; 2; 0; 1] three_particles) by well_formed.
  assert (Hperm : pairs [0; 1; 0; 2] ≡ₚ pairs [0; 2; 0; 1])
    by exact (Permutation_swap (0, 2) (0, 1) []).
  exact (pair_order_is_irrelevant false 3 law_r2_exact None [0; 1; 0; 2]
           [0; 2; 0; 1] three_particles (replicate 9 5) Hv1 Hv2 Hperm eq_refl).
Defined.

Lemma self_pair_adds_energy_only_example :
  ∃ E e G,
    get_energy (make law_r2_exact ([0; 1] ++ []) None) three_particles = Ok E
    ∧ get_energy (make law_r2_exact ([0; 1] ++ 2 :: 2 :: []) None)
        three_particles
      = Ok (E + energy law_r2_exact 0)
    ∧ get_energy_gradient false (make law_r2_exact ([0; 1] ++ []) None)
        three_particles (replicate 9 5) = Ok (e, G)
    ∧ get_energy_gradient false (make law_r2_exact ([0; 1] ++ 2 :: 2 :: []) None)
        three_particles (replicate 9 5)
      = Ok (e + (energy_gradient law_r2_exact 0).1, G).
Proof.
  assert (Hv : valid_input 3 ([0; 1] ++ 2 :: 2 :: []) three_particles)
    by well_formed.
  exact (self_pair_adds_energy_only false 3 law_r2_exact None [0; 1] [] 2
           three_particles (replicate 9 5) eq_refl Hv eq_refl).
Defined.

Lemma translation_invariance_example :
  get_energy (make law_r2_exact [0; 1; 0; 2] None)
    (translate (10, -4, 7) three_particles)
  = get_energy (make law_r2_exact [0; 1; 0; 2] None) three_particles
  ∧ get_energy_gradient false (make law_r2_exact [0; 1; 0; 2] None)
      (translate (10, -4, 7) three_particles) (replicate 9 5)
    = get_energy_gradient false (make law_r2_exact [0; 1; 0; 2] None)
        three_particles (replicate 9 5).
Proof.
  assert (Hv : valid_input 3 [0; 1; 0; 2] three_particles) by well_formed.
  exact (translation_invariance false 3 (make law_r2_exact [0; 1; 0; 2] None)
           (10, -4, 7) three_particles (replicate 9 5) Hv eq_refl).
Defined.

